(** * parax / alpa: three_d_parallel.py

    A shallow embedding of the pure core of
    [parax/pipeline_parallel/three_d_parallel.py]:

    - [split_compute_and_apply]  (lines 27-44),
    - [split_donate_invars]      (lines 47-100),
    - the stage-to-mesh assignment of [three_d_parallel_callable]
      (lines 146-152).

    Python exceptions are modelled with a small error monad, [logger.warning]
    with an explicit log, Python [set]s and [dict]s with stdpp's [gset] and
    [gmap], and [sorted] with stdpp's [merge_sort]. *)

From stdpp Require Import base option list gmap sets strings sorting.

(** ** Exceptions *)

Inductive Exception : Type :=
  | IndexError
  | KeyError
  | ValueError
  | AssertionError.

Inductive Result (A : Type) : Type :=
  | Ok (a : A)
  | Raise (e : Exception).
Arguments Ok {A} a.
Arguments Raise {A} e.

Definition rbind {A B : Type} (c : Result A) (k : A → Result B) : Result B :=
  match c with
  | Ok a => k a
  | Raise e => Raise e
  end.

Notation "x ←! c ; k" := (rbind c (λ x, k))
  (at level 20, c at level 100, k at level 200, right associativity,
   format "'[v' x  ←!  c ; '/' k ']'").
Notation "' p ←! c ; k" := (rbind c (λ x, match x with p => k end))
  (at level 20, p pattern, c at level 100, k at level 200,
   right associativity).

(** A Python [for] loop threading its local state through the body; the
    first exception raised by the body leaves the loop. *)
Fixpoint for_each {A S : Type} (body : S → A → Result S) (s : S) (l : list A)
  : Result S :=
  match l with
  | [] => Ok s
  | x :: l' => s' ←! body s x; for_each body s' l'
  end.

(** [l[i]] for a non-negative index. *)
Definition getitem {A : Type} (l : list A) (i : nat) : Result A :=
  match l !! i with
  | Some x => Ok x
  | None => Raise IndexError
  end.

(** [d[k]] on a dict. *)
Definition dict_getitem {K : Type} `{Countable K} {V : Type}
    (d : gmap K V) (k : K) : Result V :=
  match d !! k with
  | Some x => Ok x
  | None => Raise KeyError
  end.

(** [enumerate(l)] *)
Definition enumerate {A : Type} (l : list A) : list (nat * A) :=
  imap (λ i x, (i, x)) l.

(** ** Data model *)

(** Variables of the dataflow graph; identity is by name. *)
Definition Var : Type := string.

(** The part of [JaxPipelineStage] that [split_donate_invars] reads. *)
Record JaxPipelineStage : Type := mkStage {
  stage_name : string;
  stage_invars : list Var;
  stage_outvars : list Var;
}.

(** ** split_donate_invars (lines 47-100) *)

(** Stage indices are the positions given by [enumerate], hence natural
    numbers.  [ans] is a list of [len(stages)] entries, [None] at first;
    the assignment [ans[stage_idx] = donate_status] comes after
    [stages[stage_idx]] has been read, so it is always in range. *)

Module Donation.

(** Lines 64-68: one step of the list comprehension
    [[global_invars[i] for i in range(len(donated_invars))
      if not donated_invars[i]]]. *)
Definition not_donated_body (donated_invars : list bool)
    (global_invars : list Var) (acc : list Var) (i : nat)
    : Result (list Var) :=
  d ←! getitem donated_invars i;
  if negb d then v ←! getitem global_invars i; Ok (acc ++ [v])
  else Ok acc.

(** Lines 64-69: the global inputs whose donation flag is false. *)
Definition not_donated_of (donated_invars : list bool)
    (global_invars : list Var) : Result (gset Var) :=
  not_donated ←! for_each (not_donated_body donated_invars global_invars)
                   [] (seq 0 (length donated_invars));
  Ok (list_to_set not_donated).

(** Lines 71-74: for every variable, the index of the last stage that has
    it among its inputs. *)
Definition global_last_use_of (stages : list JaxPipelineStage)
    : gmap Var nat :=
  foldl (λ glu '(stage_idx, stage),
           foldl (λ glu invar, <[invar := stage_idx]> glu)
                 glu (stage_invars stage))
        ∅ (enumerate stages).

(** Lines 80-82: every output produced by a stage of the group. *)
Definition main_copy_vars_of (stages : list JaxPipelineStage)
    (serial_group : list nat) : Result (gset Var) :=
  for_each (λ main_copy_vars stage_idx,
      stage ←! getitem stages stage_idx;
      Ok (main_copy_vars ∪ list_to_set (stage_outvars stage)))
    ∅ serial_group.

(** Lines 88-97: the flag appended for one input variable. *)
Definition donate_flag (not_donated use_later main_copy_vars : gset Var)
    (global_last_use : gmap Var nat) (stage_idx : nat) (var : Var)
    : Result bool :=
  if bool_decide (var ∈ not_donated) || bool_decide (var ∈ use_later)
  then Ok false
  else if bool_decide (var ∈ main_copy_vars)
  then last_use ←! dict_getitem global_last_use var;
       if bool_decide (stage_idx < last_use) then Ok false else Ok true
  else Ok true.

(** Lines 86-99: the body of the reverse walk; the loop state is
    [(use_later, ans)]. *)
Definition walk_stage (stages : list JaxPipelineStage)
    (not_donated main_copy_vars : gset Var) (global_last_use : gmap Var nat)
    (st : gset Var * list (option (list bool))) (stage_idx : nat)
    : Result (gset Var * list (option (list bool))) :=
  let '(use_later, ans) := st in
  stage ←! getitem stages stage_idx;
  let invars := stage_invars stage in
  donate_status ←! for_each (λ donate_status var,
      b ←! donate_flag not_donated use_later main_copy_vars
             global_last_use stage_idx var;
      Ok (donate_status ++ [b]))
    [] invars;
  Ok (use_later ∪ list_to_set invars, <[stage_idx := Some donate_status]> ans).

(** Lines 78-99: one iteration of the loop over [pattern]. *)
Definition walk_group (stages : list JaxPipelineStage)
    (not_donated : gset Var) (global_last_use : gmap Var nat)
    (ans : list (option (list bool))) (serial_group : list nat)
    : Result (list (option (list bool))) :=
  let serial_group := merge_sort le serial_group in
  main_copy_vars ←! main_copy_vars_of stages serial_group;
  let serial_group := reverse serial_group in
  ' (_, ans) ←! for_each
      (walk_stage stages not_donated main_copy_vars global_last_use)
      (∅, ans) serial_group;
  Ok ans.

(** [ans] holds [None] for a stage that no group of [pattern] names. *)
Definition split_donate_invars (donated_invars : list bool)
    (global_invars : list Var) (stages : list JaxPipelineStage)
    (pattern : list (list nat)) : Result (list (option (list bool))) :=
  not_donated ←! not_donated_of donated_invars global_invars;
  let global_last_use := global_last_use_of stages in
  let ans := replicate (length stages) None in
  for_each (walk_group stages not_donated global_last_use) ans pattern.

End Donation.

(** ** split_compute_and_apply (lines 27-44) *)

Module Jaxpr.

Inductive Primitive : Type :=
  | pipeline_p
  | other_primitive (name : string).

Global Instance Primitive_eq_dec : EqDecision Primitive.
Proof. solve_decision. Defined.

(** Values of the [params] dict of an equation. *)
Inductive Param : Type :=
  | ParamStr (s : string)
  | ParamOther (repr : string).

Global Instance Param_eq_dec : EqDecision Param.
Proof. solve_decision. Defined.

Record JaxprEqn : Type := mkEqn {
  eqn_invars : list Var;
  eqn_outvars : list Var;
  primitive : Primitive;
  params : gmap string Param;
}.

Record Jaxpr : Type := mkJaxpr {
  constvars : list Var;
  invars : list Var;
  outvars : list Var;
  eqns : list JaxprEqn;
}.

Record ClosedJaxpr : Type := mkClosedJaxpr {
  jaxpr : Jaxpr;
  consts : list string;
}.

(** The [eqns] property of [ClosedJaxpr]. *)
Definition closed_eqns (closed_jaxpr : ClosedJaxpr) : list JaxprEqn :=
  eqns (jaxpr closed_jaxpr).

Inductive LogRecord : Type :=
  | Warning (msg : string).

Section split.
Local Open Scope string_scope.

(** [slices_to_jaxpr] of [parax.util], which is not part of these sources. *)
Variable slices_to_jaxpr :
  ClosedJaxpr → list (list JaxprEqn) → Result (list ClosedJaxpr).

(** Line 31: [eqn.primitive is pipeline_p and
    eqn.params['mark_type'] == 'grad'] *)
Definition is_grad_marker (eqn : JaxprEqn) : Result bool :=
  if bool_decide (primitive eqn = pipeline_p)
  then mark_type ←! dict_getitem (params eqn) "mark_type";
       Ok (bool_decide (mark_type = ParamStr "grad"))
  else Ok false.

(** Lines 29-33: the loop state is [None] while [split_eqn is None], and
    [Some (split_eqn, split_idx)] afterwards. *)
Definition find_split_body (st : option (JaxprEqn * nat))
    (entry : nat * JaxprEqn) : Result (option (JaxprEqn * nat)) :=
  let '(idx, eqn) := entry in
  is_marker ←! is_grad_marker eqn;
  if is_marker then Ok (Some (eqn, idx)) else Ok st.

Definition find_split (eqns : list JaxprEqn)
    : Result (option (JaxprEqn * nat)) :=
  for_each find_split_body None (enumerate eqns).

(** The second component is what the call sends to [logger]. *)
Definition split_compute_and_apply (closed_jaxpr : ClosedJaxpr)
    : Result (ClosedJaxpr * ClosedJaxpr * option JaxprEqn) * list LogRecord :=
  match find_split (closed_eqns closed_jaxpr) with
  | Raise e => (Raise e, [])
  | Ok None =>
      (Ok (closed_jaxpr, mkClosedJaxpr (mkJaxpr [] [] [] []) [], None),
       [Warning "missing barrier between compute and apply, hint: replace jax.grad by parax.grad"])
  | Ok (Some (split_eqn, split_idx)) =>
      let sliced_eqns :=
        [ take split_idx (closed_eqns closed_jaxpr);
          [split_eqn];
          drop (S split_idx) (closed_eqns closed_jaxpr) ] in
      match slices_to_jaxpr closed_jaxpr sliced_eqns with
      | Raise e => (Raise e, [])
      | Ok [compute; _; apply] => (Ok (compute, apply, Some split_eqn), [])
      | Ok _ => (Raise ValueError, [])
      end
  end.

End split.

End Jaxpr.

(** ** three_d_parallel_callable: the stage-to-mesh assignment
    (lines 146-152) *)

Module Placement.

(** Line 148: [i if i < stage_num / 2 else stage_num - i - 1].  The true
    division yields [stage_num / 2] exactly for every stage count below
    2^53, and Python compares an integer with a float exactly, so the test
    is [2 * i < stage_num]. *)
Definition mesh_of (stage_num i : nat) : nat :=
  if bool_decide (2 * i < stage_num) then i else stage_num - i - 1.

(** Lines 147-150: the dict comprehension over
    [enumerate(jax_pipeline_stages)]. *)
Definition stage_to_mesh_of (stage_num : nat)
    (jax_pipeline_stages : list JaxPipelineStage) : gmap nat nat :=
  foldl (λ stage_to_mesh '(i, _), <[i := mesh_of stage_num i]> stage_to_mesh)
        ∅ (enumerate jax_pipeline_stages).

(** Lines 146-152; the result is [(stage_to_mesh, mesh_num)]. *)
Definition assign_meshes (jax_pipeline_stages : list JaxPipelineStage)
    : Result (gmap nat nat * nat) :=
  let stage_num := length jax_pipeline_stages in
  let stage_to_mesh := stage_to_mesh_of stage_num jax_pipeline_stages in
  if bool_decide (stage_num mod 2 = 0)
  then Ok (stage_to_mesh, stage_num / 2)
  else Raise AssertionError.

Section callable.
(** What [three_d_parallel_callable] returns: the function running the
    pipeline. *)
Context {Callable : Type}.

(** Lines 154-260: the schedule, the placement, the donation split, the
    sharding of the stages and the runtime object, all built from
    collaborators outside these sources. *)
Variable build_pipeline :
  list JaxPipelineStage → option Jaxpr.JaxprEqn → gmap nat nat → nat →
  Result Callable.

(** [three_d_parallel_callable] from line 146 on, given the sliced stages
    and the barrier found by [split_compute_and_apply]. *)
Definition three_d_parallel_callable_from_stages
    (jax_pipeline_stages : list JaxPipelineStage)
    (barrier : option Jaxpr.JaxprEqn) : Result Callable :=
  ' (stage_to_mesh, mesh_num) ←! assign_meshes jax_pipeline_stages;
  build_pipeline jax_pipeline_stages barrier stage_to_mesh mesh_num.

End callable.

End Placement.

(** ** three_d_parallel_callable: gradients of the barrier
    (lines 159-163) *)

Module Barrier.
Import Jaxpr.

Section barrier.

(** [isinstance(g, DropVar)] *)
Variable is_DropVar : Var → bool.

(** Line 159: [[g for g in barrier.outvars if not isinstance(g, DropVar)]] *)
Definition gradients_of (barrier : JaxprEqn) : list Var :=
  List.filter (λ g, negb (is_DropVar g)) (eqn_outvars barrier).

(** Lines 160-163: one entry of the dict comprehension
    [{outv: acc_grad_dict[inv] for outv, inv in zip(gradients, barrier.invars)}];
    a later entry replaces an earlier one with the same key. *)
Definition mask_body (acc_grad_dict : gmap Var Var) (mask : gmap Var Var)
    (entry : Var * Var) : Result (gmap Var Var) :=
  let '(outv, inv) := entry in
  acc ←! dict_getitem acc_grad_dict inv;
  Ok (<[outv := acc]> mask).

Definition mask_of (acc_grad_dict : gmap Var Var) (barrier : JaxprEqn)
    : Result (gmap Var Var) :=
  let gradients := gradients_of barrier in
  for_each (mask_body acc_grad_dict) ∅ (zip gradients (eqn_invars barrier)).

End barrier.

End Barrier.

(** ** three_d_parallel_callable: stages per mesh, donation and compiled
    stages (lines 203-243) *)

Module Assembly.
Import Jaxpr Donation.

Section assembly.

(** [list(schedule.stage_placement(i))]: the meshes on which the schedule
    places stage [i]. *)
Variable stage_placement : nat → list nat.

(** The compiled stages, and [generate_sharded_xla_stages] applied to the
    mesh index, the stages of the mesh and their donation flags; its other
    arguments are fixed by the mesh index and by the call of
    [three_d_parallel_callable]. *)
Context {XlaStage : Type}.
Variable generate_sharded_xla_stages :
  nat → list JaxPipelineStage → list (option (list bool)) →
  Result (list XlaStage).

(** Lines 205-210: the body of the loop over [enumerate(jax_all_stages)];
    the loop state is [(stage_dict, stage_id_dict)]. *)
Definition place_stage
    (st : list (list JaxPipelineStage) * list (list nat))
    (entry : nat * JaxPipelineStage)
    : Result (list (list JaxPipelineStage) * list (list nat)) :=
  let '(stage_dict, stage_id_dict) := st in
  let '(i, stage) := entry in
  let mesh_indices := stage_placement i in
  if bool_decide (length mesh_indices = 1)
  then mesh_idx ←! getitem mesh_indices 0;
       ids ←! getitem stage_id_dict mesh_idx;
       let stage_id_dict := <[mesh_idx := ids ++ [i]]> stage_id_dict in
       stages ←! getitem stage_dict mesh_idx;
       let stage_dict := <[mesh_idx := stages ++ [stage]]> stage_dict in
       Ok (stage_dict, stage_id_dict)
  else Raise AssertionError.

(** Lines 203-210 *)
Definition group_stages (n_meshes : nat)
    (jax_all_stages : list JaxPipelineStage)
    : Result (list (list JaxPipelineStage) * list (list nat)) :=
  for_each place_stage (replicate n_meshes [], replicate n_meshes [])
           (enumerate jax_all_stages).

(** Lines 212-219: [(all_invars, all_donation)]; [grad_in_to_out] is the
    dict in insertion order. *)
Definition donation_inputs (barrier : option JaxprEqn) (invars : list Var)
    (donated_invars : list bool) (grad_in_to_out : list (Var * Var))
    : list Var * list bool :=
  match barrier with
  | Some _ =>
      let grad_invars := grad_in_to_out.*1 in
      (invars ++ grad_invars,
       donated_invars ++ replicate (length grad_invars) true)
  | None => (invars, donated_invars)
  end.

(** Line 220: [[stage_id_dict[mesh_idx] for mesh_idx in range(mesh_num)]] *)
Definition pattern_of (mesh_num : nat) (stage_id_dict : list (list nat))
    : Result (list (list nat)) :=
  for_each (λ pattern mesh_idx,
      ids ←! getitem stage_id_dict mesh_idx; Ok (pattern ++ [ids]))
    [] (seq 0 mesh_num).

(** Lines 231-234: [[donate_invars_dict[stage_idx] for stage_idx in
    stage_id_dict[mesh_idx]]] *)
Definition stage_donate_invars_of
    (donate_invars_dict : list (option (list bool))) (ids : list nat)
    : Result (list (option (list bool))) :=
  for_each (λ acc stage_idx,
      flags ←! getitem donate_invars_dict stage_idx; Ok (acc ++ [flags]))
    [] ids.

(** Lines 242-243: [xla_stages[i] = xla_stage] *)
Definition store_stage (xla_stages : list (option XlaStage))
    (entry : nat * XlaStage) : Result (list (option XlaStage)) :=
  let '(i, xla_stage) := entry in
  if bool_decide (i < length xla_stages)
  then Ok (<[i := Some xla_stage]> xla_stages)
  else Raise IndexError.

(** Lines 226-243: the body of the loop over [range(n_meshes)]. *)
Definition compile_mesh (stage_dict : list (list JaxPipelineStage))
    (stage_id_dict : list (list nat))
    (donate_invars_dict : list (option (list bool)))
    (xla_stages : list (option XlaStage)) (mesh_idx : nat)
    : Result (list (option XlaStage)) :=
  ids ←! getitem stage_id_dict mesh_idx;
  stage_donate_invars ←! stage_donate_invars_of donate_invars_dict ids;
  mesh_stages ←! getitem stage_dict mesh_idx;
  sharded_xla_stages ←!
    generate_sharded_xla_stages mesh_idx mesh_stages stage_donate_invars;
  ids' ←! getitem stage_id_dict mesh_idx;
  for_each store_stage xla_stages (zip ids' sharded_xla_stages).

(** Lines 203-243, given the number of meshes of the schedule, [mesh_num],
    the barrier, the inputs of the traced graph with their donation flags,
    [grad_in_to_out] and the stages.  The result is
    [(donate_invars_dict, xla_stages)]. *)
Definition assemble_stages (n_meshes mesh_num : nat)
    (barrier : option JaxprEqn) (invars : list Var)
    (donated_invars : list bool) (grad_in_to_out : list (Var * Var))
    (jax_all_stages : list JaxPipelineStage)
    : Result (list (option (list bool)) * list (option XlaStage)) :=
  ' (stage_dict, stage_id_dict) ←! group_stages n_meshes jax_all_stages;
  let '(all_invars, all_donation) :=
    donation_inputs barrier invars donated_invars grad_in_to_out in
  pattern ←! pattern_of mesh_num stage_id_dict;
  donate_invars_dict ←!
    split_donate_invars all_donation all_invars jax_all_stages pattern;
  let n_stages := length jax_all_stages in
  xla_stages ←!
    for_each (compile_mesh stage_dict stage_id_dict donate_invars_dict)
      (replicate n_stages None) (seq 0 n_meshes);
  Ok (donate_invars_dict, xla_stages).

End assembly.

End Assembly.

(** * Vocabulary of the statements *)

Module DonationSpec.

(** Stage [s] has [v] among its inputs. *)
Definition reads (stages : list JaxPipelineStage) (s : nat) (v : Var) : Prop :=
  ∃ stage, stages !! s = Some stage ∧ v ∈ stage_invars stage.

(** Stage [s] has [v] among its outputs. *)
Definition produces (stages : list JaxPipelineStage) (s : nat) (v : Var)
    : Prop :=
  ∃ stage, stages !! s = Some stage ∧ v ∈ stage_outvars stage.

(** [L] is the position of the last stage, over all groups, reading [v]. *)
Definition last_use (stages : list JaxPipelineStage) (v : Var) (L : nat)
    : Prop :=
  reads stages L v ∧ ∀ u, reads stages u v → u ≤ L.

(** What the walk has put in [use_later] when it reaches stage [s]: the
    inputs of the stages of the walked list that come after [s]. *)
Definition used_later (stages : list JaxPipelineStage) (walked : list nat)
    (s : nat) (v : Var) : Prop :=
  ∃ s', s' ∈ walked ∧ s < s' ∧ reads stages s' v.

(** [v] is a main-copy variable of [group]: some stage of the group
    produces it. *)
Definition main_copy (stages : list JaxPipelineStage) (group : list nat)
    (v : Var) : Prop :=
  ∃ s, s ∈ group ∧ produces stages s v.

(** The three reasons for which stage [s] of [group] keeps its input [v]. *)
Definition not_donatable (stages : list JaxPipelineStage)
    (not_donated : gset Var) (group : list nat) (s : nat) (v : Var) : Prop :=
  v ∈ not_donated
  ∨ used_later stages group s v
  ∨ (main_copy stages group v ∧ ∃ L, last_use stages v L ∧ s < L).

(** [flags] is parallel to [invars] and holds [false] exactly at the
    variables satisfying [keep]. *)
Definition flags_agree (keep : Var → Prop) (invars : list Var)
    (flags : list bool) : Prop :=
  Forall2 (λ v b, b = false ↔ keep v) invars flags.

(** One donation flag per global input, and [pattern] names every stage
    index exactly once. *)
Definition valid_input (donated_invars : list bool)
    (global_invars : list Var) (stages : list JaxPipelineStage)
    (pattern : list (list nat)) : Prop :=
  length donated_invars = length global_invars
  ∧ concat pattern ≡ₚ seq 0 (length stages).

(** Stage [s] returns [true] for some occurrence of [v] among its inputs. *)
Definition marked_true (stages : list JaxPipelineStage)
    (ans : list (option (list bool))) (s : nat) (v : Var) : Prop :=
  ∃ stage flags j,
    stages !! s = Some stage ∧ ans !! s = Some (Some flags)
    ∧ stage_invars stage !! j = Some v ∧ flags !! j = Some true.

(** [t] is the last stage, in global stage order, marking [v] true. *)
Definition last_true_mark (stages : list JaxPipelineStage)
    (ans : list (option (list bool))) (v : Var) (t : nat) : Prop :=
  marked_true stages ans t v ∧ ∀ t', marked_true stages ans t' v → t' ≤ t.

(** The flags of a stage that has been walked: as many as the stage has
    inputs, and [false] at every variable of [not_donated]. *)
Definition walked_entry (stages : list JaxPipelineStage)
    (not_donated : gset Var) (ans : list (option (list bool))) (s : nat)
    : Prop :=
  ∀ stage, stages !! s = Some stage →
    ∃ flags, ans !! s = Some (Some flags)
      ∧ length flags = length (stage_invars stage)
      ∧ ∀ j v, stage_invars stage !! j = Some v → v ∈ not_donated →
               flags !! j = Some false.

End DonationSpec.

Module JaxprSpec.
Import Jaxpr.

(** An equation tagged as the gradient barrier. *)
Definition grad_barrier (eqn : JaxprEqn) : Prop :=
  primitive eqn = pipeline_p
  ∧ params eqn !! "mark_type"%string = Some (ParamStr "grad"%string).

(** [pipeline_p] is always bound with a [mark_type] parameter. *)
Definition well_formed_eqn (eqn : JaxprEqn) : Prop :=
  primitive eqn = pipeline_p → is_Some (params eqn !! "mark_type"%string).

Global Instance grad_barrier_dec eqn : Decision (grad_barrier eqn).
Proof. unfold grad_barrier. apply _. Defined.

Global Instance well_formed_eqn_dec eqn : Decision (well_formed_eqn eqn).
Proof. unfold well_formed_eqn. apply _. Defined.

(** What the scan has found: nothing when no equation is a barrier, the
    last barrier and its position otherwise. *)
Definition scan_result (eqns : list JaxprEqn)
    (found : option (JaxprEqn * nat)) : Prop :=
  match found with
  | None => Forall (λ eqn, ¬ grad_barrier eqn) eqns
  | Some (split_eqn, split_idx) =>
      eqns !! split_idx = Some split_eqn
      ∧ grad_barrier split_eqn
      ∧ ∀ j eqn, split_idx < j → eqns !! j = Some eqn → ¬ grad_barrier eqn
  end.

(** The contract of [slices_to_jaxpr] used here: one closed graph per
    slice, holding the equations of that slice. *)
Definition slices_to_jaxpr_contract
    (slices_to_jaxpr :
       ClosedJaxpr → list (list JaxprEqn) → Result (list ClosedJaxpr))
    : Prop :=
  ∀ closed_jaxpr sliced_eqns, ∃ graphs,
    slices_to_jaxpr closed_jaxpr sliced_eqns = Ok graphs
    ∧ Forall2 (λ graph slice, closed_eqns graph = slice) graphs sliced_eqns.

End JaxprSpec.

Module AssemblySpec.

(** The schedule places each of the first [N] stages on one mesh, and
    this mesh is one of the [n_meshes] meshes. *)
Definition well_placed (stage_placement : nat → list nat)
    (n_meshes N : nat) : Prop :=
  ∀ i, i < N → ∃ mesh_idx, stage_placement i = [mesh_idx]
                          ∧ mesh_idx < n_meshes.

(** The stages, among the first [N], placed on [mesh_idx], in ascending
    order. *)
Definition stages_on (stage_placement : nat → list nat) (N mesh_idx : nat)
    : list nat :=
  filter (λ i, stage_placement i = [mesh_idx]) (seq 0 N).

(** [stage_dict] and [stage_id_dict] for the stages [jax_all_stages]: one
    group per mesh, the group of a mesh holding the stages placed on it in
    ascending order, with the stage objects at the same positions. *)
Definition grouped (stage_placement : nat → list nat) (n_meshes : nat)
    (jax_all_stages : list JaxPipelineStage)
    (stage_dict : list (list JaxPipelineStage))
    (stage_id_dict : list (list nat)) : Prop :=
  length stage_id_dict = n_meshes
  ∧ (∀ mesh_idx, mesh_idx < n_meshes →
       stage_id_dict !! mesh_idx
       = Some (stages_on stage_placement (length jax_all_stages) mesh_idx))
  ∧ Forall2 (Forall2 (λ i stage, jax_all_stages !! i = Some stage))
            stage_id_dict stage_dict
  ∧ concat stage_id_dict ≡ₚ seq 0 (length jax_all_stages).

(** [xla_stage] is what the compiler returns for stage [s]: the call for
    the mesh of [s] receives the stages placed on this mesh, in ascending
    order, with their entries of [donate_invars_dict], and [xla_stage] is
    its output at the position of [s]. *)
Definition compiled_for {XlaStage : Type}
    (stage_placement : nat → list nat)
    (generate_sharded_xla_stages :
       nat → list JaxPipelineStage → list (option (list bool)) →
       Result (list XlaStage))
    (jax_all_stages : list JaxPipelineStage)
    (donate_invars_dict : list (option (list bool)))
    (s : nat) (xla_stage : XlaStage) : Prop :=
  ∃ mesh_idx k mesh_stages stage_donate_invars sharded_xla_stages,
    let ids := stages_on stage_placement (length jax_all_stages) mesh_idx in
    stage_placement s = [mesh_idx]
    ∧ ids !! k = Some s
    ∧ Forall2 (λ i stage, jax_all_stages !! i = Some stage) ids mesh_stages
    ∧ Forall2 (λ i flags, donate_invars_dict !! i = Some flags)
              ids stage_donate_invars
    ∧ generate_sharded_xla_stages mesh_idx mesh_stages stage_donate_invars
      = Ok sharded_xla_stages
    ∧ sharded_xla_stages !! k = Some xla_stage.

(** The compiler returns one compiled stage per stage it is given. *)
Definition one_per_stage {XlaStage : Type}
    (generate_sharded_xla_stages :
       nat → list JaxPipelineStage → list (option (list bool)) →
       Result (list XlaStage)) : Prop :=
  ∀ mesh_idx mesh_stages stage_donate_invars,
    length stage_donate_invars = length mesh_stages →
    ∃ sharded_xla_stages,
      generate_sharded_xla_stages mesh_idx mesh_stages stage_donate_invars
      = Ok sharded_xla_stages
      ∧ length sharded_xla_stages = length mesh_stages.

End AssemblySpec.

Import Donation DonationSpec Jaxpr JaxprSpec Placement.

(** * Example inputs *)

Section examples.
Local Open Scope string_scope.

Definition ex_stages : list JaxPipelineStage :=
  [ mkStage "fwd0" ["x"; "w0"] ["a"];
    mkStage "fwd1" ["a"; "w1"] ["b"];
    mkStage "bwd1" ["b"; "a"; "w1"] ["g1"; "da"];
    mkStage "bwd0" ["da"; "x"; "w0"; "a"] ["g0"] ].

Definition ex_global_invars : list Var := ["x"; "w0"; "w1"].
Definition ex_donated_invars : list bool := [false; true; true].
Definition ex_pattern : list (list nat) := [[3; 0]; [1; 2]].
Definition ex_pattern' : list (list nat) := [[0; 3]; [2; 1]].

End examples.

Section jaxpr_examples.
Local Open Scope string_scope.

Definition ex_mul : JaxprEqn :=
  mkEqn ["x"; "w"] ["y"] (other_primitive "mul") ∅.
Definition ex_start_marker : JaxprEqn :=
  mkEqn ["y"] ["y0"] pipeline_p
        {[ "name" := ParamStr "1"; "mark_type" := ParamStr "start" ]}.
Definition ex_grad_marker : JaxprEqn :=
  mkEqn ["g"] ["g0"] pipeline_p
        {[ "name" := ParamStr "grad"; "mark_type" := ParamStr "grad" ]}.
Definition ex_grad_marker' : JaxprEqn :=
  mkEqn ["h"] ["h0"] pipeline_p
        {[ "name" := ParamStr "grad"; "mark_type" := ParamStr "grad" ]}.
Definition ex_sub : JaxprEqn :=
  mkEqn ["w"; "g0"] ["w1"] (other_primitive "sub") ∅.

(** A graph without a barrier, one with a single barrier and one with two
    barriers. *)
Definition ex_no_barrier : ClosedJaxpr :=
  mkClosedJaxpr (mkJaxpr [] ["x"; "w"] ["y0"] [ex_mul; ex_start_marker]) [].
Definition ex_one_barrier : ClosedJaxpr :=
  mkClosedJaxpr
    (mkJaxpr [] ["x"; "w"] ["w1"]
             [ex_mul; ex_start_marker; ex_grad_marker; ex_sub]) [].
Definition ex_two_barriers : ClosedJaxpr :=
  mkClosedJaxpr
    (mkJaxpr [] ["x"; "w"] ["w1"]
             [ex_mul; ex_grad_marker'; ex_start_marker; ex_grad_marker;
              ex_sub]) [].

(** An instance of [slices_to_jaxpr_contract]: each slice becomes a closed
    graph holding its equations and nothing else. *)
Definition ex_slices_to_jaxpr (closed_jaxpr : ClosedJaxpr)
    (sliced_eqns : list (list JaxprEqn)) : Result (list ClosedJaxpr) :=
  Ok ((λ eqns, mkClosedJaxpr (mkJaxpr [] [] [] eqns) []) <$> sliced_eqns).

End jaxpr_examples.

(** The example is a valid input: three flags for three global inputs, and
    the pattern names each of the four stages once. *)
Ltac ex_valid_input :=
  split; [reflexivity|]; simpl;
  change [3; 0; 1; 2] with ([3] ++ [0; 1; 2]);
  by rewrite (comm app).

(** Settles a decidable closed proposition by evaluating its decision
    procedure. *)
Ltac decide_by_computation :=
  match goal with
  | |- ?P => apply (bool_decide_unpack P); vm_compute; exact I
  end.

(** * Proofs *)


(** ** Facts about the error monad and the loops *)

Section loops.
Context {A S : Type}.
Implicit Types (body : S → A → Result S) (l : list A).

Lemma for_each_app body s l1 l2 :
  for_each body s (l1 ++ l2)
  = rbind (for_each body s l1) (λ s', for_each body s' l2).
Proof.
  revert s. induction l1 as [|x l1 IH]; intros s; simpl; [done|].
  destruct (body s x) as [s'|e]; simpl; [apply IH|done].
Qed.

End loops.

Lemma elem_of_concat {A} (x : A) (ls : list (list A)) :
  x ∈ concat ls ↔ ∃ l, l ∈ ls ∧ x ∈ l.
Proof.
  induction ls as [|l ls IH]; simpl.
  - split; [by intros ?%elem_of_nil|]. by intros (l & ?%elem_of_nil & _).
  - rewrite elem_of_app, IH. split.
    + intros [?|(l' & ? & ?)]; [exists l; split; [by left|done]|].
      exists l'. split; [by right|done].
    + intros (l' & [->|?]%elem_of_cons & ?); [by left|].
      right. by exists l'.
Qed.

Lemma getitem_Ok {A} (l : list A) i x : l !! i = Some x → getitem l i = Ok x.
Proof. unfold getitem. by intros ->. Qed.

Lemma getitem_inv {A} (l : list A) i x : getitem l i = Ok x → l !! i = Some x.
Proof. unfold getitem. destruct (l !! i); naive_solver. Qed.

Lemma rbind_Ok_inv {A B} (c : Result A) (k : A → Result B) b :
  rbind c k = Ok b → ∃ a, c = Ok a ∧ k a = Ok b.
Proof. destruct c; simpl; naive_solver. Qed.

Module DonationFacts.
Import Donation DonationSpec.

(** *** The set of non-donated global inputs *)

Lemma not_donated_loop_inv donated_invars global_invars idxs acc r v :
  for_each (not_donated_body donated_invars global_invars) acc idxs = Ok r →
  v ∈ r ↔ v ∈ acc ∨
          ∃ i, i ∈ idxs ∧ donated_invars !! i = Some false
               ∧ global_invars !! i = Some v.
Proof.
  revert acc. induction idxs as [|i idxs IH]; intros acc; simpl.
  - intros [= ->]. split; [by left|]. intros [?|(i & Hi & _)]; [done|].
    by apply elem_of_nil in Hi.
  - intros (acc' & Hbody & Hrest)%rbind_Ok_inv.
    apply IH in Hrest. rewrite Hrest. clear Hrest IH.
    unfold not_donated_body in Hbody.
    apply rbind_Ok_inv in Hbody as (d & Hd%getitem_inv & Hbody).
    destruct d; simpl in Hbody.
    + injection Hbody as <-. split.
      * intros [?|(j & Hj & ?)]; [by left|]. right. exists j.
        split; [by right|done].
      * intros [?|(j & Hj & Hfalse & Hv)]; [by left|].
        apply elem_of_cons in Hj as [->|Hj]; [congruence|].
        right. by exists j.
    + apply rbind_Ok_inv in Hbody as (w & Hw%getitem_inv & [= <-]).
      rewrite elem_of_app, list_elem_of_singleton. split.
      * intros [[?| ->]|(j & Hj & ?)]; [by left| |].
        -- right. exists i. split; [by left|done].
        -- right. exists j. split; [by right|done].
      * intros [?|(j & Hj & Hfalse & Hv)]; [by left; left|].
        apply elem_of_cons in Hj as [->|Hj].
        -- left. right. congruence.
        -- right. by exists j.
Qed.

Lemma not_donated_loop_Ok donated_invars global_invars idxs acc :
  length donated_invars ≤ length global_invars →
  Forall (λ i, i < length donated_invars) idxs →
  ∃ r, for_each (not_donated_body donated_invars global_invars) acc idxs = Ok r.
Proof.
  intros Hlen Hidxs. revert acc.
  induction Hidxs as [|i idxs Hi _ IH]; intros acc; simpl; [by eexists|].
  unfold not_donated_body at 1.
  destruct (lookup_lt_is_Some_2 donated_invars i Hi) as [d Hd].
  destruct (lookup_lt_is_Some_2 global_invars i ltac:(lia)) as [v Hv].
  rewrite (getitem_Ok _ _ _ Hd). simpl.
  destruct d; simpl; [apply IH|].
  rewrite (getitem_Ok _ _ _ Hv). simpl. apply IH.
Qed.

Lemma not_donated_of_spec donated_invars global_invars nd v :
  not_donated_of donated_invars global_invars = Ok nd →
  v ∈ nd ↔ ∃ i, donated_invars !! i = Some false
                ∧ global_invars !! i = Some v.
Proof.
  unfold not_donated_of.
  intros (r & Hr & [= <-])%rbind_Ok_inv.
  apply (not_donated_loop_inv _ _ _ _ _ v) in Hr.
  rewrite elem_of_list_to_set, Hr. split.
  - intros [Hnil|(i & _ & ?)]; [by apply elem_of_nil in Hnil|by exists i].
  - intros (i & Hd & Hv). right. exists i. split; [|done].
    apply elem_of_seq. apply lookup_lt_Some in Hd. lia.
Qed.

Lemma not_donated_of_Ok donated_invars global_invars :
  length donated_invars ≤ length global_invars →
  ∃ nd, not_donated_of donated_invars global_invars = Ok nd.
Proof.
  intros Hlen. unfold not_donated_of.
  destruct (not_donated_loop_Ok donated_invars global_invars
              (seq 0 (length donated_invars)) [] Hlen) as [r Hr].
  { apply Forall_forall. intros i Hi%elem_of_seq. lia. }
  rewrite Hr.
  simpl. by eexists.
Qed.

(** *** Readers, producers and the global last use *)

Lemma reads_app_l stages stage s v :
  s < length stages → reads (stages ++ [stage]) s v ↔ reads stages s v.
Proof. intros Hs. unfold reads. by rewrite lookup_app_l. Qed.

Lemma reads_snoc stages stage s v :
  reads (stages ++ [stage]) s v ↔
  reads stages s v ∨ (s = length stages ∧ v ∈ stage_invars stage).
Proof.
  destruct (decide (s < length stages)) as [Hs|Hs].
  - rewrite reads_app_l by done. split; [by left|].
    intros [?|[-> _]]; [done|lia].
  - unfold reads. split.
    + intros (st & Hst & Hv). right.
      rewrite lookup_app_r in Hst by lia.
      apply list_lookup_singleton_Some in Hst as [? ->].
      split; [lia|done].
    + intros [(st & Hst & _)|[-> Hv]]; [apply lookup_lt_Some in Hst; lia|].
      exists stage. split; [|done].
      rewrite lookup_app_r by lia. by rewrite Nat.sub_diag.
Qed.

Lemma record_uses_lookup (glu : gmap Var nat) (i : nat) (l : list Var) v :
  foldl (λ glu invar, <[invar := i]> glu) glu l !! v
  = if decide (v ∈ l) then Some i else glu !! v.
Proof.
  revert glu. induction l as [|x l IH]; intros glu.
  - destruct (decide (v ∈ [])) as [Hv|Hv]; [by apply elem_of_nil in Hv|done].
  - simpl. rewrite IH. destruct (decide (v ∈ l)) as [Hl|Hl].
    + rewrite decide_True; [done|by right].
    + destruct (decide (v = x)) as [->|Hne].
      * rewrite lookup_insert_eq. rewrite decide_True; [done|by left].
      * rewrite lookup_insert_ne by done.
        rewrite decide_False; [done|]. by intros [?|?]%elem_of_cons.
Qed.

Lemma global_last_use_of_snoc stages stage :
  global_last_use_of (stages ++ [stage])
  = foldl (λ glu invar, <[invar := length stages]> glu)
          (global_last_use_of stages) (stage_invars stage).
Proof.
  unfold global_last_use_of, enumerate.
  rewrite imap_app, foldl_app. simpl. by rewrite Nat.add_0_r.
Qed.

(** The dict holds, for a variable, the greatest index of a stage reading
    it. *)
Lemma global_last_use_Some stages v L :
  global_last_use_of stages !! v = Some L →
  reads stages L v ∧ ∀ u, reads stages u v → u ≤ L.
Proof.
  revert L. induction stages as [|stage stages IH] using rev_ind; intros L.
  - by unfold global_last_use_of.
  - rewrite global_last_use_of_snoc, record_uses_lookup.
    case_decide as Hv.
    + intros [= <-]. split.
      * apply reads_snoc. by right.
      * intros u (st & Hst & _). apply lookup_lt_Some in Hst.
        rewrite length_app in Hst. simpl in Hst. lia.
    + intros [HL Hmax]%IH. split.
      * apply reads_snoc. by left.
      * intros u [Hu|[_ ?]]%reads_snoc; [by apply Hmax|done].
Qed.

Lemma global_last_use_is_Some stages s v :
  reads stages s v → is_Some (global_last_use_of stages !! v).
Proof.
  revert s. induction stages as [|stage stages IH] using rev_ind; intros s.
  - by intros (st & Hst & _).
  - rewrite global_last_use_of_snoc, record_uses_lookup.
    case_decide as Hv; [by eexists|].
    intros [Hs|[_ ?]]%reads_snoc; [by eapply IH|done].
Qed.

(** *** The main-copy variables of a serial group *)

Lemma main_copy_loop_spec stages group :
  Forall (λ s, s < length stages) group →
  ∀ acc : gset Var, ∃ mcv,
    for_each (λ main_copy_vars stage_idx,
        stage ←! getitem stages stage_idx;
        Ok (main_copy_vars ∪ list_to_set (stage_outvars stage)))
      acc group = Ok mcv
    ∧ ∀ v, v ∈ mcv ↔ v ∈ acc ∨ ∃ s, s ∈ group ∧ produces stages s v.
Proof.
  induction 1 as [|s group Hs _ IH]; intros acc; simpl.
  - exists acc. split; [done|]. intros v. split; [by left|].
    intros [?|(s & Hs & _)]; [done|]. by apply elem_of_nil in Hs.
  - destruct (lookup_lt_is_Some_2 stages s Hs) as [stage Hstage].
    rewrite (getitem_Ok _ _ _ Hstage). simpl.
    destruct (IH (acc ∪ list_to_set (stage_outvars stage))) as (mcv & -> & Hmcv).
    exists mcv. split; [done|]. intros v. rewrite Hmcv.
    rewrite elem_of_union, elem_of_list_to_set. split.
    + intros [[?|Hv]|(s' & Hs' & Hp)]; [by left| |].
      * right. exists s. split; [by left|]. by exists stage.
      * right. exists s'. split; [by right|done].
    + intros [?|(s' & Hs' & Hp)]; [by left; left|].
      apply elem_of_cons in Hs' as [->|Hs'].
      * destruct Hp as (stage' & Hstage' & Hv). left. right. congruence.
      * right. by exists s'.
Qed.

Lemma main_copy_vars_of_spec stages group :
  Forall (λ s, s < length stages) group →
  ∃ mcv, main_copy_vars_of stages group = Ok mcv
         ∧ ∀ v, v ∈ mcv ↔ ∃ s, s ∈ group ∧ produces stages s v.
Proof.
  intros Hgroup.
  destruct (main_copy_loop_spec stages group Hgroup ∅) as (mcv & Hrun & Hmcv).
  exists mcv. split; [done|]. intros v. rewrite Hmcv. split; [|by right].
  intros [Hv|?]; [by apply not_elem_of_empty in Hv|done].
Qed.

(** *** The flag of one input *)

Lemma flags_agree_iff (keep keep' : Var → Prop) invars flags :
  (∀ v, v ∈ invars → keep v ↔ keep' v) →
  flags_agree keep invars flags → flags_agree keep' invars flags.
Proof.
  unfold flags_agree. intros Hiff Hagree.
  induction Hagree as [|v b invars flags Hvb _ IH]; constructor.
  - rewrite Hvb. apply Hiff. by left.
  - apply IH. intros w Hw. apply Hiff. by right.
Qed.

Lemma flags_agree_length keep invars flags :
  flags_agree keep invars flags → length flags = length invars.
Proof. intros Hagree. symmetry. by eapply Forall2_length. Qed.

Lemma flags_agree_lookup keep invars flags j v b :
  flags_agree keep invars flags →
  invars !! j = Some v → flags !! j = Some b → b = false ↔ keep v.
Proof.
  intros Hagree Hv Hb.
  by eapply (Forall2_lookup_lr _ invars flags j v b) in Hagree.
Qed.

Lemma donate_flag_spec (not_donated use_later main_copy_vars : gset Var)
    (glu : gmap Var nat) stage_idx var :
  is_Some (glu !! var) →
  ∃ b, donate_flag not_donated use_later main_copy_vars glu stage_idx var
       = Ok b
       ∧ (b = false ↔
          var ∈ not_donated ∨ var ∈ use_later ∨
          (var ∈ main_copy_vars ∧ ∃ L, glu !! var = Some L ∧ stage_idx < L)).
Proof.
  intros [L HL]. unfold donate_flag, dict_getitem. rewrite HL. simpl.
  destruct (decide (var ∈ not_donated)) as [Hnd|Hnd].
  { rewrite (bool_decide_eq_true_2 _ Hnd). simpl.
    exists false. split; [done|]. split; [by left|done]. }
  rewrite (bool_decide_eq_false_2 _ Hnd). simpl.
  destruct (decide (var ∈ use_later)) as [Hul|Hul].
  { rewrite (bool_decide_eq_true_2 _ Hul).
    exists false. split; [done|]. split; [by right; left|done]. }
  rewrite (bool_decide_eq_false_2 _ Hul).
  destruct (decide (var ∈ main_copy_vars)) as [Hmc|Hmc].
  - rewrite (bool_decide_eq_true_2 _ Hmc).
    destruct (decide (stage_idx < L)) as [Hlt|Hlt].
    + rewrite (bool_decide_eq_true_2 _ Hlt).
      exists false. split; [done|]. split; [|done].
      intros _. right. right. split; [done|]. by exists L.
    + rewrite (bool_decide_eq_false_2 _ Hlt).
      exists true. split; [done|]. split; [done|].
      intros [?|[?|[_ (L' & HL' & ?)]]]; [done..|].
      assert (L' = L) by congruence. subst. done.
  - rewrite (bool_decide_eq_false_2 _ Hmc).
    exists true. split; [done|]. split; [done|].
    intros [?|[?|[? _]]]; done.
Qed.

Lemma donate_status_loop_spec (not_donated use_later main_copy_vars : gset Var)
    (glu : gmap Var nat) stage_idx invars :
  Forall (λ v, is_Some (glu !! v)) invars →
  ∀ acc, ∃ flags,
    for_each (λ donate_status var,
        b ←! donate_flag not_donated use_later main_copy_vars
               glu stage_idx var;
        Ok (donate_status ++ [b]))
      acc invars = Ok (acc ++ flags)
    ∧ flags_agree (λ var,
        var ∈ not_donated ∨ var ∈ use_later ∨
        (var ∈ main_copy_vars ∧ ∃ L, glu !! var = Some L ∧ stage_idx < L))
        invars flags.
Proof.
  induction 1 as [|v invars Hv _ IH]; intros acc; simpl.
  - exists []. rewrite app_nil_r. split; [done|constructor].
  - destruct (donate_flag_spec not_donated use_later main_copy_vars
                glu stage_idx v Hv) as (b & -> & Hb).
    simpl. destruct (IH (acc ++ [b])) as (flags & -> & Hflags).
    exists (b :: flags). rewrite <- app_assoc. split; [done|].
    by constructor.
Qed.

(** *** The reverse walk over one serial group *)

Lemma walk_stage_spec stages (not_donated main_copy_vars : gset Var)
    (use_later : gset Var) ans s stage :
  stages !! s = Some stage →
  ∃ flags,
    walk_stage stages not_donated main_copy_vars (global_last_use_of stages)
               (use_later, ans) s
    = Ok (use_later ∪ list_to_set (stage_invars stage),
          <[s := Some flags]> ans)
    ∧ flags_agree (λ var,
        var ∈ not_donated ∨ var ∈ use_later ∨
        (var ∈ main_copy_vars ∧
         ∃ L, global_last_use_of stages !! var = Some L ∧ s < L))
        (stage_invars stage) flags.
Proof.
  intros Hstage. unfold walk_stage.
  rewrite (getitem_Ok _ _ _ Hstage). simpl.
  destruct (donate_status_loop_spec not_donated use_later main_copy_vars
              (global_last_use_of stages) s (stage_invars stage))
    with (acc := @nil bool) as (flags & -> & Hflags).
  { apply Forall_forall. intros v Hv.
    apply (global_last_use_is_Some stages s). by exists stage. }
  simpl. by exists flags.
Qed.

Lemma walk_spec stages (not_donated main_copy_vars : gset Var) walked :
  Forall (λ s, s < length stages) walked →
  StronglySorted (flip lt) walked →
  ∀ (use_later : gset Var) ans, length ans = length stages →
  ∃ use_later' ans',
    for_each (walk_stage stages not_donated main_copy_vars
                (global_last_use_of stages))
      (use_later, ans) walked = Ok (use_later', ans')
    ∧ length ans' = length stages
    ∧ (∀ s, s ∉ walked → ans' !! s = ans !! s)
    ∧ (∀ s stage, s ∈ walked → stages !! s = Some stage →
        ∃ flags, ans' !! s = Some (Some flags)
          ∧ flags_agree (λ var,
              var ∈ not_donated ∨
              (var ∈ use_later ∨ used_later stages walked s var) ∨
              (var ∈ main_copy_vars ∧
               ∃ L, global_last_use_of stages !! var = Some L ∧ s < L))
              (stage_invars stage) flags).
Proof.
  intros Hrange Hsorted. revert Hsorted.
  induction Hrange as [|s0 walked Hs0 _ IH]; intros Hsorted use_later ans Hlen.
  { exists use_later, ans. simpl. split_and!; [done..|].
    intros s stage Hs. by apply elem_of_nil in Hs. }
  apply StronglySorted_cons in Hsorted as [Hbelow Hsorted].
  rewrite Forall_forall in Hbelow. unfold flip in Hbelow.
  destruct (lookup_lt_is_Some_2 stages s0 Hs0) as [stage0 Hstage0].
  destruct (walk_stage_spec stages not_donated main_copy_vars use_later
              ans s0 stage0 Hstage0) as (flags0 & Hstep & Hflags0).
  destruct (IH Hsorted (use_later ∪ list_to_set (stage_invars stage0))
              (<[s0 := Some flags0]> ans))
    as (use_later' & ans' & Hrun & Hlen' & Hother & Hwalked).
  { by rewrite length_insert. }
  exists use_later', ans'. cbn [for_each]. rewrite Hstep. cbn [rbind].
  split_and!; [done..| |].
  - intros s Hs. apply not_elem_of_cons in Hs as [Hne Hs].
    rewrite Hother by done. by rewrite list_lookup_insert_ne.
  - intros s stage Hs Hstage.
    destruct (decide (s = s0)) as [->|Hne].
    + assert (stage = stage0) by congruence. subst stage.
      exists flags0. split.
      * rewrite Hother.
        -- apply list_lookup_insert_eq. lia.
        -- intros Hin%Hbelow. lia.
      * eapply flags_agree_iff; [|exact Hflags0].
        intros v _. simpl. split.
        -- intros [?|[?|?]]; [by left|by right; left; left|by right; right].
        -- intros [?|[[?|(s' & Hs' & Hlt & _)]|?]];
             [by left|by right; left| |by right; right].
           apply elem_of_cons in Hs' as [->|Hs'%Hbelow]; lia.
    + apply elem_of_cons in Hs as [?|Hs]; [done|].
      destruct (Hwalked s stage Hs Hstage) as (flags & Hans & Hflags).
      exists flags. split; [done|].
      eapply flags_agree_iff; [|exact Hflags].
      intros v _. simpl. rewrite elem_of_union, elem_of_list_to_set.
      split.
      * intros [?|[[[?|Hv]|(s' & Hs' & Hlt & Hr)]|?]];
          [by left|by right; left; left| | |by right; right].
        -- right. left. right. exists s0. split_and!; [by left| |by exists stage0].
           apply Hbelow in Hs. lia.
        -- right. left. right. exists s'. split_and!; [by right|done..].
      * intros [?|[[?|(s' & Hs' & Hlt & Hr)]|?]];
          [by left|by right; left; left; left| |by right; right].
        apply elem_of_cons in Hs' as [->|Hs'].
        -- destruct Hr as (stage' & Hstage' & Hv).
           assert (stage' = stage0) by congruence. subst stage'.
           right. left. left. by right.
        -- right. left. right. by exists s'.
Qed.

(** *** Sorting a serial group *)

Lemma StronglySorted_le_lt (l : list nat) :
  NoDup l → StronglySorted le l → StronglySorted lt l.
Proof.
  intros Hnd Hsorted.
  induction Hsorted as [|x l _ IH Hx]; [constructor|].
  apply NoDup_cons in Hnd as [Hnotin Hnd].
  constructor; [by apply IH|].
  rewrite Forall_forall in Hx |- *. intros y Hy.
  specialize (Hx y Hy).
  assert (x ≠ y) by (by intros ->). lia.
Qed.

Lemma descending_sorted (group : list nat) :
  NoDup group → StronglySorted (flip lt) (reverse (merge_sort le group)).
Proof.
  intros Hnd.
  assert (Transitive (flip lt)) by (intros x y z; unfold flip; lia).
  apply Sorted_StronglySorted; [done|].
  apply Sorted_reverse, StronglySorted_Sorted, StronglySorted_le_lt.
  - by rewrite merge_sort_Permutation.
  - apply StronglySorted_merge_sort; apply _.
Qed.

Lemma elem_of_descending (group : list nat) s :
  s ∈ reverse (merge_sort le group) ↔ s ∈ group.
Proof. by rewrite elem_of_reverse, merge_sort_Permutation. Qed.

(** *** One serial group, then the whole pattern *)

Lemma last_use_unique stages v L L' :
  last_use stages v L → last_use stages v L' → L = L'.
Proof.
  intros [Hr Hmax] [Hr' Hmax']. apply Hmax in Hr'. apply Hmax' in Hr. lia.
Qed.

Lemma global_last_use_last_use stages v L :
  global_last_use_of stages !! v = Some L ↔ last_use stages v L.
Proof.
  split; [apply global_last_use_Some|].
  intros Hlast. destruct (global_last_use_is_Some stages L v) as [L' HL'].
  { apply Hlast. }
  rewrite HL'. f_equal. apply global_last_use_Some in HL'.
  by eapply last_use_unique.
Qed.

Lemma last_use_exists stages s v : reads stages s v → ∃ L, last_use stages v L.
Proof.
  intros [L HL]%global_last_use_is_Some. exists L.
  by apply global_last_use_last_use.
Qed.

Lemma walk_group_spec stages (not_donated : gset Var) ans group :
  NoDup group →
  Forall (λ s, s < length stages) group →
  length ans = length stages →
  ∃ ans',
    walk_group stages not_donated (global_last_use_of stages) ans group
    = Ok ans'
    ∧ length ans' = length stages
    ∧ (∀ s, s ∉ group → ans' !! s = ans !! s)
    ∧ (∀ s stage, s ∈ group → stages !! s = Some stage →
        ∃ flags, ans' !! s = Some (Some flags)
          ∧ flags_agree (not_donatable stages not_donated group s)
              (stage_invars stage) flags).
Proof.
  intros Hnd Hrange Hlen. unfold walk_group.
  destruct (main_copy_vars_of_spec stages (merge_sort le group))
    as (mcv & -> & Hmcv).
  { by rewrite merge_sort_Permutation. }
  cbn [rbind].
  destruct (walk_spec stages not_donated mcv (reverse (merge_sort le group)))
    with (use_later := (∅ : gset Var)) (ans := ans)
    as (use_later' & ans' & -> & Hlen' & Hother & Hwalked).
  { apply Forall_forall. intros s Hs.
    apply (proj1 (elem_of_descending group s)) in Hs.
    rewrite Forall_forall in Hrange. by apply Hrange. }
  { by apply descending_sorted. }
  { done. }
  exists ans'. cbn [rbind]. split_and!; [done..| |].
  - intros s Hs. apply Hother. by rewrite elem_of_descending.
  - intros s stage Hs Hstage.
    destruct (Hwalked s stage) as (flags & Hans & Hflags);
      [by rewrite elem_of_descending|done|].
    exists flags. split; [done|].
    eapply flags_agree_iff; [|exact Hflags].
    intros v _. simpl. unfold not_donatable, used_later, main_copy.
    rewrite Hmcv.
    setoid_rewrite elem_of_descending.
    setoid_rewrite merge_sort_Permutation.
    setoid_rewrite global_last_use_last_use.
    split.
    + intros [?|[[Hemp|?]|?]]; [by left| |by right; left|by right; right].
      by apply not_elem_of_empty in Hemp.
    + intros [?|[?|?]]; [by left|by right; left; right|by right; right].
Qed.

Lemma walk_pattern_spec stages (not_donated : gset Var) pattern :
  NoDup (concat pattern) →
  Forall (λ s, s < length stages) (concat pattern) →
  ∀ ans, length ans = length stages →
  ∃ ans',
    for_each (walk_group stages not_donated (global_last_use_of stages))
      ans pattern = Ok ans'
    ∧ length ans' = length stages
    ∧ (∀ s, s ∉ concat pattern → ans' !! s = ans !! s)
    ∧ (∀ group s stage, group ∈ pattern → s ∈ group →
        stages !! s = Some stage →
        ∃ flags, ans' !! s = Some (Some flags)
          ∧ flags_agree (not_donatable stages not_donated group s)
              (stage_invars stage) flags).
Proof.
  induction pattern as [|group pattern IH]; intros Hnd Hrange ans Hlen.
  { exists ans. simpl. split_and!; [done..|].
    intros group s stage Hgroup. by apply elem_of_nil in Hgroup. }
  simpl in Hnd, Hrange.
  apply NoDup_app in Hnd as (Hnd_group & Hdisj & Hnd_rest).
  apply Forall_app in Hrange as [Hrange_group Hrange_rest].
  destruct (walk_group_spec stages not_donated ans group)
    as (ans1 & Hgroup_run & Hlen1 & Hother1 & Hin1); [done..|].
  destruct (IH Hnd_rest Hrange_rest ans1 Hlen1)
    as (ans' & Hrun & Hlen' & Hother & Hin).
  exists ans'. cbn [for_each]. rewrite Hgroup_run. cbn [rbind].
  split_and!; [done..| |].
  - intros s Hs. simpl in Hs. apply not_elem_of_app in Hs as [Hs1 Hs2].
    rewrite Hother by done. by apply Hother1.
  - intros group' s stage Hgroup' Hs Hstage.
    apply elem_of_cons in Hgroup' as [->|Hgroup'].
    + rewrite Hother by (by apply Hdisj). by apply Hin1.
    + by apply Hin.
Qed.

(** *** Valid inputs *)

Lemma valid_input_covers donated_invars global_invars stages pattern s :
  valid_input donated_invars global_invars stages pattern →
  s < length stages → ∃ group, group ∈ pattern ∧ s ∈ group.
Proof.
  intros [_ Hperm] Hs.
  assert (s ∈ concat pattern) as Hin.
  { rewrite Hperm. apply elem_of_seq. lia. }
  apply elem_of_concat in Hin as (group & ? & ?). by exists group.
Qed.

(** The function returns, and every stage named by the pattern gets the
    flags described by [not_donatable]. *)
Lemma split_donate_invars_spec donated_invars global_invars stages pattern :
  valid_input donated_invars global_invars stages pattern →
  ∃ not_donated ans,
    not_donated_of donated_invars global_invars = Ok not_donated
    ∧ split_donate_invars donated_invars global_invars stages pattern
      = Ok ans
    ∧ length ans = length stages
    ∧ (∀ group s stage, group ∈ pattern → s ∈ group →
        stages !! s = Some stage →
        ∃ flags, ans !! s = Some (Some flags)
          ∧ flags_agree (not_donatable stages not_donated group s)
              (stage_invars stage) flags).
Proof.
  intros [Hflags Hperm].
  destruct (not_donated_of_Ok donated_invars global_invars)
    as [not_donated Hnd]; [lia|].
  destruct (walk_pattern_spec stages not_donated pattern)
    with (ans := replicate (length stages) (@None (list bool)))
    as (ans & Hrun & Hlen & _ & Hin).
  { rewrite Hperm. apply NoDup_seq. }
  { rewrite Hperm. apply Forall_forall. intros s Hs%elem_of_seq. lia. }
  { apply length_replicate. }
  exists not_donated, ans. unfold split_donate_invars.
  rewrite Hnd. cbn [rbind]. by split_and!.
Qed.

End DonationFacts.

Import DonationFacts.

Example split_donate_invars_ex :
  split_donate_invars ex_donated_invars ex_global_invars ex_stages ex_pattern
  = Ok [Some [false; false]; Some [false; false];
        Some [true; true; true]; Some [true; false; true; true]].
Proof. vm_compute. reflexivity. Qed.

(** A variable read on two meshes and produced on neither is a copy on
    both: each mesh marks it once its own last reader has run, so the
    earlier stage marks it too. *)
Example cross_mesh_copies_ex :
  split_donate_invars [true] ["v"%string]
    [ mkStage "s0" ["v"%string] []; mkStage "s1" ["v"%string] [] ]
    [[0]; [1]]
  = Ok [Some [true]; Some [true]].
Proof. vm_compute. reflexivity. Qed.

(** A stage that no group names keeps [None]; a group naming a stage that
    does not exist raises [IndexError]. *)
Example uncovered_stage_ex :
  split_donate_invars ex_donated_invars ex_global_invars ex_stages [[0; 3]]
  = Ok [Some [false; false]; None; None; Some [true; false; true; true]].
Proof. vm_compute. reflexivity. Qed.

Example missing_stage_ex :
  split_donate_invars ex_donated_invars ex_global_invars ex_stages [[0; 4]]
  = Raise IndexError.
Proof. vm_compute. reflexivity. Qed.

(** A stage marking [v] true has found none of the three reasons to keep
    it. *)
Lemma marked_true_donatable donated_invars global_invars stages pattern
    not_donated ans group s v :
  valid_input donated_invars global_invars stages pattern →
  not_donated_of donated_invars global_invars = Ok not_donated →
  split_donate_invars donated_invars global_invars stages pattern = Ok ans →
  group ∈ pattern → s ∈ group →
  marked_true stages ans s v →
  ¬ not_donatable stages not_donated group s v.
Proof.
  intros Hvalid Hnd Hrun Hgroup Hs (stage & flags & j & Hstage & Hans & Hv & Hb).
  destruct (split_donate_invars_spec _ _ _ _ Hvalid)
    as (nd0 & ans0 & Hnd0 & Hrun0 & _ & Hspec).
  assert (ans0 = ans) by congruence.
  assert (nd0 = not_donated) by congruence. subst ans0 nd0.
  destruct (Hspec group s stage Hgroup Hs Hstage) as (flags' & Hans' & Hagree).
  assert (flags' = flags) by congruence. subst flags'.
  intros Hkeep.
  by apply (flags_agree_lookup _ _ _ j v true Hagree Hv Hb) in Hkeep.
Qed.

(** If some stage marks [v] true, then the stage of its last use does. *)
Lemma last_use_marked_true donated_invars global_invars stages pattern ans
    v s L :
  valid_input donated_invars global_invars stages pattern →
  split_donate_invars donated_invars global_invars stages pattern = Ok ans →
  marked_true stages ans s v →
  last_use stages v L →
  marked_true stages ans L v.
Proof.
  intros Hvalid Hrun Hmark Hlast.
  destruct (split_donate_invars_spec _ _ _ _ Hvalid)
    as (nd & ans0 & Hnd & Hrun0 & Hlen & Hspec).
  assert (ans0 = ans) by congruence. subst ans0.
  (* [v] is not among the non-donated globals *)
  assert (v ∉ nd) as Hnotnd.
  { destruct Hmark as (stage & flags & j & Hstage & Hans & Hv & Hb).
    destruct (valid_input_covers _ _ _ _ s Hvalid) as (group & Hgroup & Hs).
    { by eapply lookup_lt_Some. }
    intros Hin.
    apply (marked_true_donatable donated_invars global_invars stages
             pattern nd ans group s v); [done..| |by left].
    by exists stage, flags, j. }
  destruct Hlast as [[stageL [HstageL HvL]] Hmax].
  destruct (valid_input_covers _ _ _ _ L Hvalid) as (groupL & HgroupL & HL).
  { by eapply lookup_lt_Some. }
  destruct (Hspec groupL L stageL HgroupL HL HstageL)
    as (flagsL & HansL & HagreeL).
  apply list_elem_of_lookup in HvL as [jL HjL].
  destruct (Forall2_lookup_l _ _ _ jL v HagreeL HjL) as (b & HbL & Hiff).
  exists stageL, flagsL, jL. split_and!; [done..|].
  destruct b; [done|]. exfalso.
  destruct (proj1 Hiff eq_refl) as [?|[(s' & _ & Hlt & Hr)|[_ (L' & HL' & Hlt)]]].
  - done.
  - apply Hmax in Hr. lia.
  - destruct HL' as [Hr _]. apply Hmax in Hr. lia.
Qed.

Lemma marked_true_reads stages ans s v :
  marked_true stages ans s v → reads stages s v.
Proof.
  intros (stage & flags & j & Hstage & _ & Hv & _). exists stage.
  split; [done|]. by eapply list_elem_of_lookup_2.
Qed.

(** C1, as stated, fails on the four-stage example: stage 2 (mesh 1)
    returns [true] for its input [a], a copy on that mesh, and stage 3
    (mesh 0), which runs after it, still reads [a]. *)
Lemma donated_before_later_reader :
  valid_input ex_donated_invars ex_global_invars ex_stages ex_pattern
  ∧ ∃ ans,
    split_donate_invars ex_donated_invars ex_global_invars ex_stages
      ex_pattern = Ok ans
    ∧ ¬ (∀ v s u, marked_true ex_stages ans s v → reads ex_stages u v →
                  u ≤ s).
Proof.
  split; [ex_valid_input|].
  eexists. split; [vm_compute; reflexivity|].
  intros Hnever.
  assert (3 ≤ 2) as Hle; [|lia].
  apply (Hnever "a"%string).
  - eexists _, _, 1. split_and!; reflexivity.
  - eexists. split; [reflexivity|].
    apply list_elem_of_In. simpl. tauto.
Qed.

(** C1, amended. For every valid input and every variable: as soon as
    some stage marks the variable donatable there is a last such stage (in
    global stage order), and this last stage comes at or after every stage
    that has the variable among its inputs.  A stage that marks a variable
    donatable is followed by no reader of the variable in its own serial
    group and, when the variable is an output of a stage of that group (a
    main copy), by no reader at all. *)
Theorem last_donation_after_all_readers
    donated_invars global_invars stages pattern :
  valid_input donated_invars global_invars stages pattern →
  ∃ ans,
    split_donate_invars donated_invars global_invars stages pattern = Ok ans
    ∧ (∀ v s, marked_true stages ans s v →
         ∃ t, last_true_mark stages ans v t)
    ∧ (∀ v t, last_true_mark stages ans v t →
         ∀ u, reads stages u v → u ≤ t)
    ∧ (∀ group s v, group ∈ pattern → s ∈ group →
         marked_true stages ans s v →
         (∀ u, u ∈ group → reads stages u v → u ≤ s)
         ∧ (main_copy stages group v → ∀ u, reads stages u v → u ≤ s)).
Proof.
  intros Hvalid.
  destruct (split_donate_invars_spec _ _ _ _ Hvalid)
    as (nd & ans & Hnd & Hrun & _ & _).
  exists ans. split; [done|]. split_and!.
  - intros v s Hmark.
    destruct (last_use_exists stages s v) as [L HL];
      [by eapply marked_true_reads|].
    exists L. split; [by eapply last_use_marked_true|].
    intros t' Ht'. apply HL. by eapply marked_true_reads.
  - intros v t [Hmark Hlast] u Hu.
    destruct (last_use_exists stages u v Hu) as [L HL].
    assert (marked_true stages ans L v) as HmarkL
      by (by eapply last_use_marked_true).
    apply Hlast in HmarkL. destruct HL as [_ Hmax]. apply Hmax in Hu. lia.
  - intros group s v Hgroup Hs Hmark.
    pose proof (marked_true_donatable _ _ _ _ nd ans group s v
                  Hvalid Hnd Hrun Hgroup Hs Hmark) as Hfree.
    split.
    + intros u Hu Hreads.
      destruct (decide (u ≤ s)) as [|Hlt]; [done|].
      destruct Hfree. right. left. exists u. split_and!; [done|lia|done].
    + intros Hmain u Hreads.
      destruct (last_use_exists stages u v Hreads) as [L HL].
      destruct (decide (L ≤ s)) as [HLs|Hlt].
      * destruct HL as [_ Hmax]. apply Hmax in Hreads. lia.
      * destruct Hfree. right. right. split; [done|].
        exists L. split; [done|lia].
Qed.

Lemma last_donation_after_all_readers_witness :
  valid_input ex_donated_invars ex_global_invars ex_stages ex_pattern
  ∧ ∃ ans,
    split_donate_invars ex_donated_invars ex_global_invars ex_stages
      ex_pattern = Ok ans
    ∧ (∀ v s, marked_true ex_stages ans s v →
         ∃ t, last_true_mark ex_stages ans v t)
    ∧ (∀ v t, last_true_mark ex_stages ans v t →
         ∀ u, reads ex_stages u v → u ≤ t)
    ∧ (∀ group s v, group ∈ ex_pattern → s ∈ group →
         marked_true ex_stages ans s v →
         (∀ u, u ∈ group → reads ex_stages u v → u ≤ s)
         ∧ (main_copy ex_stages group v →
            ∀ u, reads ex_stages u v → u ≤ s)).
Proof.
  split; [ex_valid_input|].
  apply (last_donation_after_all_readers ex_donated_invars ex_global_invars
           ex_stages ex_pattern).
  ex_valid_input.
Defined.

(** C2. For every valid input, every stage and every input variable of
    that stage: when the variable is a global input whose caller-supplied
    donation flag is false, the boolean returned for it is false. *)
Theorem non_donated_global_never_donated
    donated_invars global_invars stages pattern :
  valid_input donated_invars global_invars stages pattern →
  ∃ ans,
    split_donate_invars donated_invars global_invars stages pattern = Ok ans
    ∧ ∀ s stage j v i,
        stages !! s = Some stage →
        stage_invars stage !! j = Some v →
        global_invars !! i = Some v →
        donated_invars !! i = Some false →
        ∃ flags, ans !! s = Some (Some flags) ∧ flags !! j = Some false.
Proof.
  intros Hvalid.
  destruct (split_donate_invars_spec _ _ _ _ Hvalid)
    as (nd & ans & Hnd & Hrun & _ & Hspec).
  exists ans. split; [done|].
  intros s stage j v i Hstage Hv Hglobal Hflag.
  destruct (valid_input_covers _ _ _ _ s Hvalid) as (group & Hgroup & Hs).
  { by eapply lookup_lt_Some. }
  destruct (Hspec group s stage Hgroup Hs Hstage) as (flags & Hans & Hagree).
  exists flags. split; [done|].
  destruct (Forall2_lookup_l _ _ _ j v Hagree Hv) as (b & Hb & Hiff).
  rewrite Hb. f_equal. apply Hiff. left.
  apply (not_donated_of_spec _ _ _ v Hnd). by exists i.
Qed.

Lemma non_donated_global_never_donated_witness :
  valid_input ex_donated_invars ex_global_invars ex_stages ex_pattern
  ∧ ∃ ans,
    split_donate_invars ex_donated_invars ex_global_invars ex_stages
      ex_pattern = Ok ans
    ∧ ∀ s stage j v i,
        ex_stages !! s = Some stage →
        stage_invars stage !! j = Some v →
        ex_global_invars !! i = Some v →
        ex_donated_invars !! i = Some false →
        ∃ flags, ans !! s = Some (Some flags) ∧ flags !! j = Some false.
Proof.
  split; [ex_valid_input|].
  apply (non_donated_global_never_donated ex_donated_invars ex_global_invars
           ex_stages ex_pattern).
  ex_valid_input.
Defined.

(** C3. For every valid input, the flags of a stage [s] of a serial group
    are computed by the rule of the reverse walk: the flag of an input [v]
    is false exactly when (a) [v] is a global input whose donation flag is
    false, or (b) [v] is in use_later, that is, among the inputs of a stage
    of the group walked before [s] (a stage of the group after [s]), or (c)
    [v] is a main-copy variable (an output of a stage of the group) whose
    last use over all the stages is strictly after [s]; it is true
    otherwise. *)
Theorem donation_rule donated_invars global_invars stages pattern :
  valid_input donated_invars global_invars stages pattern →
  ∃ ans,
    split_donate_invars donated_invars global_invars stages pattern = Ok ans
    ∧ ∀ group s stage,
        group ∈ pattern → s ∈ group → stages !! s = Some stage →
        ∃ flags, ans !! s = Some (Some flags)
          ∧ ∀ j v, stage_invars stage !! j = Some v →
              ∃ b, flags !! j = Some b
                ∧ (b = false ↔
                     (∃ i, donated_invars !! i = Some false
                           ∧ global_invars !! i = Some v)
                     ∨ used_later stages group s v
                     ∨ (main_copy stages group v
                        ∧ ∃ L, last_use stages v L ∧ s < L))
                ∧ (b = true ↔
                     ¬ ((∃ i, donated_invars !! i = Some false
                              ∧ global_invars !! i = Some v)
                        ∨ used_later stages group s v
                        ∨ (main_copy stages group v
                           ∧ ∃ L, last_use stages v L ∧ s < L))).
Proof.
  intros Hvalid.
  destruct (split_donate_invars_spec _ _ _ _ Hvalid)
    as (nd & ans & Hnd & Hrun & _ & Hspec).
  exists ans. split; [done|].
  intros group s stage Hgroup Hs Hstage.
  destruct (Hspec group s stage Hgroup Hs Hstage) as (flags & Hans & Hagree).
  exists flags. split; [done|].
  intros j v Hv.
  destruct (Forall2_lookup_l _ _ _ j v Hagree Hv) as (b & Hb & Hiff).
  exists b. split; [done|].
  unfold not_donatable in Hiff.
  rewrite (not_donated_of_spec _ _ _ v Hnd) in Hiff.
  split; [done|]. rewrite <- Hiff. by destruct b.
Qed.

Lemma donation_rule_witness :
  valid_input ex_donated_invars ex_global_invars ex_stages ex_pattern
  ∧ ∃ ans,
    split_donate_invars ex_donated_invars ex_global_invars ex_stages
      ex_pattern = Ok ans
    ∧ ∀ group s stage,
        group ∈ ex_pattern → s ∈ group → ex_stages !! s = Some stage →
        ∃ flags, ans !! s = Some (Some flags)
          ∧ ∀ j v, stage_invars stage !! j = Some v →
              ∃ b, flags !! j = Some b
                ∧ (b = false ↔
                     (∃ i, ex_donated_invars !! i = Some false
                           ∧ ex_global_invars !! i = Some v)
                     ∨ used_later ex_stages group s v
                     ∨ (main_copy ex_stages group v
                        ∧ ∃ L, last_use ex_stages v L ∧ s < L))
                ∧ (b = true ↔
                     ¬ ((∃ i, ex_donated_invars !! i = Some false
                              ∧ ex_global_invars !! i = Some v)
                        ∨ used_later ex_stages group s v
                        ∨ (main_copy ex_stages group v
                           ∧ ∃ L, last_use ex_stages v L ∧ s < L))).
Proof.
  split; [ex_valid_input|].
  apply (donation_rule ex_donated_invars ex_global_invars ex_stages
           ex_pattern).
  ex_valid_input.
Defined.

(** C8. For every valid input the function returns one boolean sequence
    per stage, at the stage's position, and the sequence of a stage is as
    long as the stage's list of input variables. *)
Theorem one_flag_sequence_per_stage
    donated_invars global_invars stages pattern :
  valid_input donated_invars global_invars stages pattern →
  ∃ ans,
    split_donate_invars donated_invars global_invars stages pattern = Ok ans
    ∧ length ans = length stages
    ∧ ∀ s stage, stages !! s = Some stage →
        ∃ flags, ans !! s = Some (Some flags)
                 ∧ length flags = length (stage_invars stage).
Proof.
  intros Hvalid.
  destruct (split_donate_invars_spec _ _ _ _ Hvalid)
    as (nd & ans & _ & Hrun & Hlen & Hspec).
  exists ans. split_and!; [done..|].
  intros s stage Hstage.
  destruct (valid_input_covers _ _ _ _ s Hvalid) as (group & Hgroup & Hs).
  { by eapply lookup_lt_Some. }
  destruct (Hspec group s stage Hgroup Hs Hstage) as (flags & Hans & Hagree).
  exists flags. split; [done|]. by eapply flags_agree_length.
Qed.

Lemma one_flag_sequence_per_stage_witness :
  valid_input ex_donated_invars ex_global_invars ex_stages ex_pattern
  ∧ ∃ ans,
    split_donate_invars ex_donated_invars ex_global_invars ex_stages
      ex_pattern = Ok ans
    ∧ length ans = length ex_stages
    ∧ ∀ s stage, ex_stages !! s = Some stage →
        ∃ flags, ans !! s = Some (Some flags)
                 ∧ length flags = length (stage_invars stage).
Proof.
  split; [ex_valid_input|].
  apply (one_flag_sequence_per_stage ex_donated_invars ex_global_invars
           ex_stages ex_pattern).
  ex_valid_input.
Defined.

(** *** Order inside a serial group *)

Lemma merge_sort_le_Permutation (l1 l2 : list nat) :
  l1 ≡ₚ l2 → merge_sort le l1 = merge_sort le l2.
Proof.
  intros Hperm. apply (StronglySorted_unique le).
  - apply StronglySorted_merge_sort; apply _.
  - apply StronglySorted_merge_sort; apply _.
  - by rewrite !merge_sort_Permutation.
Qed.

Lemma walk_group_Permutation stages (not_donated : gset Var) glu ans
    group group' :
  group ≡ₚ group' →
  walk_group stages not_donated glu ans group
  = walk_group stages not_donated glu ans group'.
Proof.
  intros Hperm. unfold walk_group.
  by rewrite (merge_sort_le_Permutation group group' Hperm).
Qed.

(** Two duplicate-free groups naming the same set of stages are
    permutations of each other. *)
Lemma same_stages_Permutation (group group' : list nat) :
  NoDup group → NoDup group' → (∀ s, s ∈ group ↔ s ∈ group') →
  group ≡ₚ group'.
Proof. intros. by apply NoDup_Permutation. Qed.

(** C9. The result does not depend on the order of the indices inside
    the serial groups: two patterns whose groups are, one by one,
    permutations of each other give the same result (also the same
    exception, if any). *)
Theorem split_donate_invars_group_order
    donated_invars global_invars stages pattern pattern' :
  Forall2 (≡ₚ) pattern pattern' →
  split_donate_invars donated_invars global_invars stages pattern
  = split_donate_invars donated_invars global_invars stages pattern'.
Proof.
  intros Hperm. unfold split_donate_invars.
  destruct (not_donated_of donated_invars global_invars) as [nd|e];
    [|done].
  cbn [rbind].
  generalize (replicate (length stages) (@None (list bool))).
  induction Hperm as [|group group' pattern pattern' Hgroup _ IH];
    intros ans; [done|].
  cbn [for_each].
  rewrite (walk_group_Permutation _ _ _ _ group group' Hgroup).
  destruct (walk_group stages nd (global_last_use_of stages) ans group')
    as [ans'|e]; [|done].
  cbn [rbind]. apply IH.
Qed.

Lemma split_donate_invars_group_order_witness :
  Forall2 (≡ₚ) ex_pattern ex_pattern'
  ∧ split_donate_invars ex_donated_invars ex_global_invars ex_stages
      ex_pattern
    = split_donate_invars ex_donated_invars ex_global_invars ex_stages
        ex_pattern'.
Proof.
  assert (Forall2 (≡ₚ) ex_pattern ex_pattern') as Hperm.
  { repeat constructor; apply perm_swap. }
  split; [exact Hperm|].
  apply (split_donate_invars_group_order ex_donated_invars ex_global_invars
           ex_stages ex_pattern ex_pattern').
  exact Hperm.
Defined.

Module JaxprFacts.
Import Jaxpr JaxprSpec.

Lemma enumerate_snoc {A} (l : list A) x :
  enumerate (l ++ [x]) = enumerate l ++ [(length l, x)].
Proof. unfold enumerate. rewrite imap_app. simpl. by rewrite Nat.add_0_r. Qed.

Lemma is_grad_marker_spec eqn :
  well_formed_eqn eqn →
  is_grad_marker eqn = Ok (bool_decide (grad_barrier eqn)).
Proof.
  intros Hwf. unfold is_grad_marker.
  destruct (decide (primitive eqn = pipeline_p)) as [Hp|Hp].
  - rewrite (bool_decide_eq_true_2 _ Hp).
    destruct (Hwf Hp) as [mark_type Hmark].
    assert (dict_getitem (params eqn) "mark_type" = Ok mark_type) as ->.
    { unfold dict_getitem. by rewrite Hmark. }
    cbn [rbind]. f_equal. apply bool_decide_ext.
    unfold grad_barrier. rewrite Hmark. split.
    + by intros ->.
    + intros [_ Heq]. congruence.
  - rewrite (bool_decide_eq_false_2 _ Hp). f_equal. symmetry.
    apply bool_decide_eq_false_2. by intros [? _].
Qed.

Lemma find_split_spec eqns :
  Forall well_formed_eqn eqns →
  ∃ found, find_split eqns = Ok found ∧ scan_result eqns found.
Proof.
  unfold find_split.
  induction eqns as [|eqn eqns IH] using rev_ind; intros Hwf.
  { exists None. split; [done|]. constructor. }
  apply Forall_app in Hwf as [Hwf Hwf_eqn].
  rewrite Forall_singleton in Hwf_eqn.
  destruct (IH Hwf) as (found & Hrun & Hfound).
  rewrite enumerate_snoc, for_each_app, Hrun. cbn [rbind for_each].
  unfold find_split_body. rewrite (is_grad_marker_spec eqn Hwf_eqn).
  cbn [rbind].
  destruct (decide (grad_barrier eqn)) as [Hb|Hb].
  - rewrite (bool_decide_eq_true_2 _ Hb).
    exists (Some (eqn, length eqns)). split; [done|]. split_and!.
    + rewrite lookup_app_r by lia. by rewrite Nat.sub_diag.
    + done.
    + intros j e Hj He. apply lookup_lt_Some in He.
      rewrite length_app in He. simpl in He. lia.
  - rewrite (bool_decide_eq_false_2 _ Hb).
    exists found. split; [done|].
    destruct found as [[split_eqn split_idx]|]; simpl in *.
    + destruct Hfound as (Hidx & Hbarrier & Hlast). split_and!.
      * by apply lookup_app_l_Some.
      * done.
      * intros j e Hj He.
        destruct (decide (j < length eqns)) as [Hlt|Hge].
        -- rewrite lookup_app_l in He by done. by eapply Hlast.
        -- rewrite lookup_app_r in He by lia.
           apply list_lookup_singleton_Some in He as [_ <-]. done.
    + apply Forall_app. split; [done|]. by apply Forall_singleton.
Qed.

Lemma scan_result_unique eqns found found' :
  scan_result eqns found → scan_result eqns found' → found = found'.
Proof.
  destruct found as [[b i]|], found' as [[b' i']|]; simpl.
  - intros (Hi & Hb & Hlast) (Hi' & Hb' & Hlast').
    assert (i = i') as <-.
    { destruct (Nat.lt_trichotomy i i') as [Hlt|[?|Hlt]]; [|done|].
      - by destruct (Hlast i' b' Hlt Hi').
      - by destruct (Hlast' i b Hlt Hi). }
    by assert (b = b') as <- by congruence.
  - intros (Hi & Hb & _) Hnone. rewrite Forall_forall in Hnone.
    destruct (Hnone b); [by eapply list_elem_of_lookup_2|done].
  - intros Hnone (Hi & Hb & _). rewrite Forall_forall in Hnone.
    destruct (Hnone b'); [by eapply list_elem_of_lookup_2|done].
  - done.
Qed.

Lemma split_at_last_barrier slices_to_jaxpr closed_jaxpr split_eqn split_idx :
  slices_to_jaxpr_contract slices_to_jaxpr →
  Forall well_formed_eqn (closed_eqns closed_jaxpr) →
  scan_result (closed_eqns closed_jaxpr) (Some (split_eqn, split_idx)) →
  ∃ compute mid apply,
    slices_to_jaxpr closed_jaxpr
      [ take split_idx (closed_eqns closed_jaxpr);
        [split_eqn];
        drop (S split_idx) (closed_eqns closed_jaxpr) ]
    = Ok [compute; mid; apply]
    ∧ split_compute_and_apply slices_to_jaxpr closed_jaxpr
      = (Ok (compute, apply, Some split_eqn), [])
    ∧ closed_eqns compute = take split_idx (closed_eqns closed_jaxpr)
    ∧ closed_eqns apply = drop (S split_idx) (closed_eqns closed_jaxpr).
Proof.
  intros Hcontract Hwf Hscan.
  destruct (find_split_spec _ Hwf) as (found & Hrun & Hfound).
  rewrite (scan_result_unique _ _ _ Hfound Hscan) in Hrun.
  unfold split_compute_and_apply. rewrite Hrun.
  destruct (Hcontract closed_jaxpr
              [take split_idx (closed_eqns closed_jaxpr); [split_eqn];
               drop (S split_idx) (closed_eqns closed_jaxpr)])
    as (graphs & -> & Hgraphs).
  inversion Hgraphs as [|compute ? ? ? Hcompute Hrest1]; subst.
  inversion Hrest1 as [|mid ? ? ? _ Hrest2]; subst.
  inversion Hrest2 as [|apply ? ? ? Happly Hrest3]; subst.
  inversion Hrest3; subst.
  by exists compute, mid, apply.
Qed.

End JaxprFacts.

Import JaxprFacts.

Lemma ex_slices_to_jaxpr_contract : slices_to_jaxpr_contract ex_slices_to_jaxpr.
Proof.
  intros closed_jaxpr sliced_eqns. eexists. split; [reflexivity|].
  induction sliced_eqns; by constructor.
Defined.

Example split_compute_and_apply_ex :
  split_compute_and_apply ex_slices_to_jaxpr ex_two_barriers
  = (Ok (mkClosedJaxpr
           (mkJaxpr [] [] [] [ex_mul; ex_grad_marker'; ex_start_marker]) [],
         mkClosedJaxpr (mkJaxpr [] [] [] [ex_sub]) [],
         Some ex_grad_marker), []).
Proof. vm_compute. reflexivity. Qed.

(** C4. For a closed graph none of whose equations is tagged as the
    gradient barrier, [split_compute_and_apply] raises nothing: it returns
    the input graph as the compute graph, an empty graph as the apply graph
    and [None] as the barrier, and logs one warning. *)
Theorem split_without_barrier slices_to_jaxpr closed_jaxpr :
  Forall well_formed_eqn (closed_eqns closed_jaxpr) →
  Forall (λ eqn, ¬ grad_barrier eqn) (closed_eqns closed_jaxpr) →
  split_compute_and_apply slices_to_jaxpr closed_jaxpr
  = (Ok (closed_jaxpr, mkClosedJaxpr (mkJaxpr [] [] [] []) [], None),
     [Warning "missing barrier between compute and apply, hint: replace jax.grad by parax.grad"]).
Proof.
  intros Hwf Hnone.
  destruct (find_split_spec _ Hwf) as (found & Hrun & Hfound).
  assert (found = None) as ->.
  { by apply (scan_result_unique (closed_eqns closed_jaxpr)). }
  unfold split_compute_and_apply. by rewrite Hrun.
Qed.

Lemma split_without_barrier_witness :
  Forall well_formed_eqn (closed_eqns ex_no_barrier)
  ∧ Forall (λ eqn, ¬ grad_barrier eqn) (closed_eqns ex_no_barrier)
  ∧ split_compute_and_apply ex_slices_to_jaxpr ex_no_barrier
    = (Ok (ex_no_barrier, mkClosedJaxpr (mkJaxpr [] [] [] []) [], None),
       [Warning "missing barrier between compute and apply, hint: replace jax.grad by parax.grad"]).
Proof.
  assert (Forall well_formed_eqn (closed_eqns ex_no_barrier)) as Hwf
    by decide_by_computation.
  assert (Forall (λ eqn, ¬ grad_barrier eqn) (closed_eqns ex_no_barrier))
    as Hnone by decide_by_computation.
  split_and!; [exact Hwf|exact Hnone|].
  exact (split_without_barrier ex_slices_to_jaxpr ex_no_barrier Hwf Hnone).
Defined.

(** C5. For a closed graph with an equation tagged as the gradient
    barrier, [split_compute_and_apply] returns three parts: the compute
    graph, which [slices_to_jaxpr] builds from the equations before the
    barrier and which holds exactly these equations, the barrier equation
    itself, and the apply graph, built from and holding exactly the
    equations after the barrier. *)
Theorem split_with_barrier slices_to_jaxpr closed_jaxpr :
  slices_to_jaxpr_contract slices_to_jaxpr →
  Forall well_formed_eqn (closed_eqns closed_jaxpr) →
  Exists grad_barrier (closed_eqns closed_jaxpr) →
  ∃ compute apply split_eqn split_idx,
    split_compute_and_apply slices_to_jaxpr closed_jaxpr
    = (Ok (compute, apply, Some split_eqn), [])
    ∧ closed_eqns closed_jaxpr !! split_idx = Some split_eqn
    ∧ grad_barrier split_eqn
    ∧ (∃ mid,
         slices_to_jaxpr closed_jaxpr
           [ take split_idx (closed_eqns closed_jaxpr);
             [split_eqn];
             drop (S split_idx) (closed_eqns closed_jaxpr) ]
         = Ok [compute; mid; apply])
    ∧ closed_eqns compute = take split_idx (closed_eqns closed_jaxpr)
    ∧ closed_eqns apply = drop (S split_idx) (closed_eqns closed_jaxpr)
    ∧ closed_eqns closed_jaxpr
      = closed_eqns compute ++ split_eqn :: closed_eqns apply.
Proof.
  intros Hcontract Hwf Hsome.
  destruct (find_split_spec _ Hwf) as (found & _ & Hfound).
  destruct found as [[split_eqn split_idx]|].
  - destruct (split_at_last_barrier _ _ _ _ Hcontract Hwf Hfound)
      as (compute & mid & apply & Hcall & Hrun & Hcompute & Happly).
    destruct Hfound as (Hidx & Hbarrier & _).
    exists compute, apply, split_eqn, split_idx.
    split_and!; [done..|by exists mid|done|done|].
    rewrite Hcompute, Happly. symmetry. by apply take_drop_middle.
  - simpl in Hfound. apply Exists_exists in Hsome as (eqn & Hin & Hb).
    rewrite Forall_forall in Hfound. by destruct (Hfound eqn Hin).
Qed.

Lemma split_with_barrier_witness :
  slices_to_jaxpr_contract ex_slices_to_jaxpr
  ∧ Forall well_formed_eqn (closed_eqns ex_one_barrier)
  ∧ Exists grad_barrier (closed_eqns ex_one_barrier)
  ∧ ∃ compute apply split_eqn split_idx,
    split_compute_and_apply ex_slices_to_jaxpr ex_one_barrier
    = (Ok (compute, apply, Some split_eqn), [])
    ∧ closed_eqns ex_one_barrier !! split_idx = Some split_eqn
    ∧ grad_barrier split_eqn
    ∧ (∃ mid,
         ex_slices_to_jaxpr ex_one_barrier
           [ take split_idx (closed_eqns ex_one_barrier);
             [split_eqn];
             drop (S split_idx) (closed_eqns ex_one_barrier) ]
         = Ok [compute; mid; apply])
    ∧ closed_eqns compute = take split_idx (closed_eqns ex_one_barrier)
    ∧ closed_eqns apply = drop (S split_idx) (closed_eqns ex_one_barrier)
    ∧ closed_eqns ex_one_barrier
      = closed_eqns compute ++ split_eqn :: closed_eqns apply.
Proof.
  assert (Forall well_formed_eqn (closed_eqns ex_one_barrier)) as Hwf
    by decide_by_computation.
  assert (Exists grad_barrier (closed_eqns ex_one_barrier)) as Hsome
    by decide_by_computation.
  split_and!; [exact ex_slices_to_jaxpr_contract|exact Hwf|exact Hsome|].
  exact (split_with_barrier ex_slices_to_jaxpr ex_one_barrier
           ex_slices_to_jaxpr_contract Hwf Hsome).
Defined.

(** C10. When the graph holds several equations tagged as the gradient
    barrier, the split is made at the last of them: that equation is the
    returned barrier, the compute graph is built from and holds exactly
    the equations before it, the apply graph is built from and holds
    exactly the equations after it; so every earlier equation, and with it
    every earlier barrier, is in the compute graph at its own position, and
    the apply graph holds no barrier. *)
Theorem split_at_last_marker slices_to_jaxpr closed_jaxpr split_eqn split_idx :
  slices_to_jaxpr_contract slices_to_jaxpr →
  Forall well_formed_eqn (closed_eqns closed_jaxpr) →
  closed_eqns closed_jaxpr !! split_idx = Some split_eqn →
  grad_barrier split_eqn →
  (∀ j eqn, split_idx < j → closed_eqns closed_jaxpr !! j = Some eqn →
            ¬ grad_barrier eqn) →
  ∃ compute apply,
    split_compute_and_apply slices_to_jaxpr closed_jaxpr
    = (Ok (compute, apply, Some split_eqn), [])
    ∧ (∃ mid,
         slices_to_jaxpr closed_jaxpr
           [ take split_idx (closed_eqns closed_jaxpr);
             [split_eqn];
             drop (S split_idx) (closed_eqns closed_jaxpr) ]
         = Ok [compute; mid; apply])
    ∧ closed_eqns compute = take split_idx (closed_eqns closed_jaxpr)
    ∧ closed_eqns apply = drop (S split_idx) (closed_eqns closed_jaxpr)
    ∧ closed_eqns closed_jaxpr
      = closed_eqns compute ++ split_eqn :: closed_eqns apply
    ∧ (∀ i eqn, i < split_idx → closed_eqns closed_jaxpr !! i = Some eqn →
         grad_barrier eqn → closed_eqns compute !! i = Some eqn)
    ∧ Forall (λ eqn, ¬ grad_barrier eqn) (closed_eqns apply).
Proof.
  intros Hcontract Hwf Hidx Hbarrier Hlast.
  destruct (split_at_last_barrier slices_to_jaxpr closed_jaxpr split_eqn
              split_idx Hcontract Hwf)
    as (compute & mid & apply & Hcall & Hrun & Hcompute & Happly); [done|].
  exists compute, apply.
  split_and!; [done|by exists mid|done|done| | |].
  - rewrite Hcompute, Happly. symmetry. by apply take_drop_middle.
  - intros i eqn Hi Heqn _. rewrite Hcompute. by rewrite lookup_take_lt.
  - rewrite Happly. apply Forall_forall. intros eqn Hin.
    apply list_elem_of_lookup in Hin as [k Hk].
    rewrite lookup_drop in Hk. apply (Hlast (S split_idx + k)); [lia|done].
Qed.

Lemma split_at_last_marker_witness :
  slices_to_jaxpr_contract ex_slices_to_jaxpr
  ∧ Forall well_formed_eqn (closed_eqns ex_two_barriers)
  ∧ closed_eqns ex_two_barriers !! 1 = Some ex_grad_marker'
  ∧ grad_barrier ex_grad_marker'
  ∧ closed_eqns ex_two_barriers !! 3 = Some ex_grad_marker
  ∧ grad_barrier ex_grad_marker
  ∧ (∀ j eqn, 3 < j → closed_eqns ex_two_barriers !! j = Some eqn →
              ¬ grad_barrier eqn)
  ∧ ∃ compute apply,
    split_compute_and_apply ex_slices_to_jaxpr ex_two_barriers
    = (Ok (compute, apply, Some ex_grad_marker), [])
    ∧ (∃ mid,
         ex_slices_to_jaxpr ex_two_barriers
           [ take 3 (closed_eqns ex_two_barriers);
             [ex_grad_marker];
             drop 4 (closed_eqns ex_two_barriers) ]
         = Ok [compute; mid; apply])
    ∧ closed_eqns compute = take 3 (closed_eqns ex_two_barriers)
    ∧ closed_eqns apply = drop 4 (closed_eqns ex_two_barriers)
    ∧ closed_eqns ex_two_barriers
      = closed_eqns compute ++ ex_grad_marker :: closed_eqns apply
    ∧ (∀ i eqn, i < 3 → closed_eqns ex_two_barriers !! i = Some eqn →
         grad_barrier eqn → closed_eqns compute !! i = Some eqn)
    ∧ Forall (λ eqn, ¬ grad_barrier eqn) (closed_eqns apply).
Proof.
  assert (Forall well_formed_eqn (closed_eqns ex_two_barriers)) as Hwf
    by decide_by_computation.
  assert (grad_barrier ex_grad_marker) as Hbarrier
    by decide_by_computation.
  assert (grad_barrier ex_grad_marker') as Hbarrier'
    by decide_by_computation.
  assert (∀ j eqn, 3 < j → closed_eqns ex_two_barriers !! j = Some eqn →
                   ¬ grad_barrier eqn) as Hlast.
  { intros j eqn Hj Heqn.
    destruct j as [|[|[|[|[|j]]]]]; [lia..| |done].
    injection Heqn as <-. intros [Hp _]. discriminate Hp. }
  split_and!; [exact ex_slices_to_jaxpr_contract|exact Hwf|reflexivity
              |exact Hbarrier'|reflexivity|exact Hbarrier|exact Hlast|].
  exact (split_at_last_marker ex_slices_to_jaxpr ex_two_barriers
           ex_grad_marker 3 ex_slices_to_jaxpr_contract Hwf eq_refl
           Hbarrier Hlast).
Defined.

Module PlacementFacts.
Import Placement.

Lemma stage_to_mesh_of_lookup stage_num (stages : list JaxPipelineStage) i :
  stage_to_mesh_of stage_num stages !! i
  = if decide (i < length stages) then Some (mesh_of stage_num i) else None.
Proof.
  unfold stage_to_mesh_of.
  induction stages as [|stage stages IH] using rev_ind.
  { simpl. by rewrite lookup_empty. }
  rewrite enumerate_snoc, foldl_app, length_app. simpl.
  destruct (decide (i = length stages)) as [->|Hne].
  - rewrite lookup_insert_eq. rewrite decide_True by lia. done.
  - rewrite lookup_insert_ne by done. rewrite IH.
    destruct (decide (i < length stages)).
    + by rewrite decide_True by lia.
    + by rewrite decide_False by lia.
Qed.

Lemma mesh_of_low stage_num i : 2 * i < stage_num → mesh_of stage_num i = i.
Proof. intros Hi. unfold mesh_of. by rewrite bool_decide_eq_true_2. Qed.

Lemma mesh_of_high stage_num i :
  stage_num ≤ 2 * i → mesh_of stage_num i = stage_num - i - 1.
Proof.
  intros Hi. unfold mesh_of. rewrite bool_decide_eq_false_2; [done|lia].
Qed.

Lemma even_half n : n mod 2 = 0 → n = 2 * (n / 2).
Proof. intros Heven. by apply Nat.Div0.div_exact. Qed.

Lemma mesh_of_mirror stage_num i :
  stage_num mod 2 = 0 → i < stage_num →
  mesh_of stage_num (stage_num - 1 - i) = mesh_of stage_num i.
Proof.
  intros Heven%even_half Hi.
  destruct (decide (2 * i < stage_num)).
  - rewrite (mesh_of_low _ i) by done. rewrite mesh_of_high; lia.
  - rewrite (mesh_of_high _ i) by lia. rewrite mesh_of_low; lia.
Qed.

Lemma mesh_of_bound stage_num i :
  stage_num mod 2 = 0 → i < stage_num → mesh_of stage_num i < stage_num / 2.
Proof.
  intros Heven%even_half Hi.
  destruct (decide (2 * i < stage_num)).
  - rewrite mesh_of_low by done. lia.
  - rewrite mesh_of_high by lia. lia.
Qed.

End PlacementFacts.

Import PlacementFacts.

(** C6. With an odd number of sliced pipeline stages the construction
    fails with an [AssertionError]: the call returns the exception and no
    callable, whatever the rest of the construction would do.  The
    assertion does not look at the barrier, so this holds in particular
    when there is none ([barrier = None]) and hence no apply-gradient
    stage. *)
Theorem odd_stage_count_fails {Callable : Type}
    (build_pipeline :
       list JaxPipelineStage → option JaxprEqn → gmap nat nat → nat →
       Result Callable)
    jax_pipeline_stages barrier :
  length jax_pipeline_stages mod 2 = 1 →
  three_d_parallel_callable_from_stages build_pipeline jax_pipeline_stages
    barrier = Raise AssertionError.
Proof.
  intros Hodd. unfold three_d_parallel_callable_from_stages, assign_meshes.
  rewrite bool_decide_eq_false_2; [done|]. rewrite Hodd. discriminate.
Qed.

Lemma odd_stage_count_fails_witness :
  length (take 3 ex_stages) mod 2 = 1
  ∧ three_d_parallel_callable_from_stages
      (λ _ _ stage_to_mesh mesh_num, Ok (stage_to_mesh, mesh_num))
      (take 3 ex_stages) None = Raise AssertionError.
Proof.
  split; [reflexivity|].
  apply (odd_stage_count_fails
           (λ _ _ stage_to_mesh mesh_num, Ok (stage_to_mesh, mesh_num))
           (take 3 ex_stages) None).
  reflexivity.
Defined.

(** C7. For an even number [N] of pipeline stages the assignment is
    built, stage [i] and stage [N-1-i] are on the same mesh for every
    [i < N], stage [i] is on mesh [i] for [i < N/2], and the meshes in use
    are exactly the [N/2] meshes [0 .. N/2-1], which is the returned mesh
    count. *)
Theorem mirrored_mesh_assignment (jax_pipeline_stages : list JaxPipelineStage) :
  let N := length jax_pipeline_stages in
  N mod 2 = 0 →
  ∃ stage_to_mesh,
    assign_meshes jax_pipeline_stages = Ok (stage_to_mesh, N / 2)
    ∧ (∀ i, i < N →
         is_Some (stage_to_mesh !! i)
         ∧ stage_to_mesh !! i = stage_to_mesh !! (N - 1 - i))
    ∧ (∀ i, i < N / 2 → stage_to_mesh !! i = Some i)
    ∧ (∀ i mesh_idx, stage_to_mesh !! i = Some mesh_idx → mesh_idx < N / 2)
    ∧ (∀ mesh_idx, mesh_idx < N / 2 →
         ∃ i, stage_to_mesh !! i = Some mesh_idx).
Proof.
  intros N Heven. unfold assign_meshes. fold N.
  rewrite bool_decide_eq_true_2 by done.
  pose proof (even_half N Heven) as Hhalf.
  exists (stage_to_mesh_of N jax_pipeline_stages).
  split; [done|]. split_and!.
  - intros i Hi. rewrite !stage_to_mesh_of_lookup. fold N.
    rewrite !decide_True by lia. split; [by eexists|].
    f_equal. symmetry. by apply mesh_of_mirror.
  - intros i Hi. rewrite stage_to_mesh_of_lookup. fold N.
    rewrite decide_True by lia. f_equal. apply mesh_of_low. lia.
  - intros i mesh_idx. rewrite stage_to_mesh_of_lookup. fold N.
    destruct (decide (i < N)); [|done]. intros [= <-].
    by apply mesh_of_bound.
  - intros mesh_idx Hm. exists mesh_idx.
    rewrite stage_to_mesh_of_lookup. fold N.
    rewrite decide_True by lia. f_equal. apply mesh_of_low. lia.
Qed.

Lemma mirrored_mesh_assignment_witness :
  length ex_stages mod 2 = 0
  ∧ ∃ stage_to_mesh,
    assign_meshes ex_stages = Ok (stage_to_mesh, 4 / 2)
    ∧ (∀ i, i < 4 →
         is_Some (stage_to_mesh !! i)
         ∧ stage_to_mesh !! i = stage_to_mesh !! (4 - 1 - i))
    ∧ (∀ i, i < 4 / 2 → stage_to_mesh !! i = Some i)
    ∧ (∀ i mesh_idx, stage_to_mesh !! i = Some mesh_idx → mesh_idx < 4 / 2)
    ∧ (∀ mesh_idx, mesh_idx < 4 / 2 →
         ∃ i, stage_to_mesh !! i = Some mesh_idx).
Proof.
  split; [reflexivity|].
  apply (mirrored_mesh_assignment ex_stages). reflexivity.
Defined.


(** * Further properties of split_donate_invars *)

Module DonationOutcome.
Import Donation DonationSpec DonationFacts.

Lemma not_donated_loop_outcome donated_invars global_invars idxs acc :
  Forall (λ i, i < length donated_invars) idxs →
  (∃ r, for_each (not_donated_body donated_invars global_invars) acc idxs
        = Ok r
        ∧ ∀ i, i ∈ idxs → donated_invars !! i = Some false →
               i < length global_invars)
  ∨ (for_each (not_donated_body donated_invars global_invars) acc idxs
     = Raise IndexError
     ∧ ∃ i, i ∈ idxs ∧ donated_invars !! i = Some false
            ∧ length global_invars ≤ i).
Proof.
  intros Hidxs. revert acc.
  induction Hidxs as [|i idxs Hi _ IH]; intros acc.
  { left. exists acc. split; [done|]. by intros i ?%elem_of_nil. }
  cbn [for_each]. unfold not_donated_body at 1 3.
  destruct (lookup_lt_is_Some_2 donated_invars i Hi) as [d Hd].
  rewrite (getitem_Ok _ _ _ Hd). cbn [rbind].
  destruct d; cbn [negb].
  - destruct (IH acc) as [(r & Hrun & Hok)|(Hrun & j & Hj & Hfalse & Hge)].
    + left. exists r. split; [done|].
      intros j [->|Hj]%elem_of_cons Hfalse; [congruence|by apply Hok].
    + right. split; [done|]. exists j. split; [by right|done].
  - destruct (global_invars !! i) as [v|] eqn:Hv.
    + rewrite (getitem_Ok _ _ _ Hv). cbn [rbind].
      destruct (IH (acc ++ [v]))
        as [(r & Hrun & Hok)|(Hrun & j & Hj & Hfalse & Hge)].
      * left. exists r. split; [done|].
        intros j [->|Hj]%elem_of_cons Hfalse; [|by apply Hok].
        by eapply lookup_lt_Some.
      * right. split; [done|]. exists j. split; [by right|done].
    + right. unfold getitem. rewrite Hv. split; [done|].
      exists i. split; [by left|]. split; [done|].
      by apply lookup_ge_None.
Qed.

Lemma not_donated_of_outcome donated_invars global_invars :
  (∃ nd, not_donated_of donated_invars global_invars = Ok nd
         ∧ ∀ i, donated_invars !! i = Some false → i < length global_invars)
  ∨ (not_donated_of donated_invars global_invars = Raise IndexError
     ∧ ∃ i, donated_invars !! i = Some false ∧ length global_invars ≤ i).
Proof.
  unfold not_donated_of.
  destruct (not_donated_loop_outcome donated_invars global_invars
              (seq 0 (length donated_invars)) [])
    as [(r & -> & Hok)|(-> & i & _ & Hfalse & Hge)].
  { apply Forall_forall. intros i Hi%elem_of_seq. lia. }
  - left. eexists. split; [done|]. intros i Hfalse. apply Hok; [|done].
    apply elem_of_seq. apply lookup_lt_Some in Hfalse. lia.
  - right. split; [done|]. by exists i.
Qed.

Lemma main_copy_loop_outcome stages group (acc : gset Var) :
  (Forall (λ s, s < length stages) group
   ∧ ∃ mcv, for_each (λ main_copy_vars stage_idx,
                stage ←! getitem stages stage_idx;
                Ok (main_copy_vars ∪ list_to_set (stage_outvars stage)))
              acc group = Ok mcv)
  ∨ (¬ Forall (λ s, s < length stages) group
     ∧ for_each (λ main_copy_vars stage_idx,
           stage ←! getitem stages stage_idx;
           Ok (main_copy_vars ∪ list_to_set (stage_outvars stage)))
         acc group = Raise IndexError).
Proof.
  revert acc. induction group as [|s group IH]; intros acc.
  { left. split; [constructor|]. by exists acc. }
  cbn [for_each].
  destruct (stages !! s) as [stage|] eqn:Hstage.
  - rewrite (getitem_Ok _ _ _ Hstage). cbn [rbind].
    apply lookup_lt_Some in Hstage.
    destruct (IH (acc ∪ list_to_set (stage_outvars stage)))
      as [(Hrange & mcv & Hrun)|(Hrange & Hrun)].
    + left. split; [by constructor|]. by exists mcv.
    + right. split; [|done]. by intros [_ ?]%Forall_cons.
  - right. unfold getitem. rewrite Hstage. split; [|done].
    apply lookup_ge_None in Hstage. intros [? _]%Forall_cons. lia.
Qed.

Lemma walk_outcome stages (not_donated main_copy_vars : gset Var) walked :
  ∀ (use_later : gset Var) ans, length ans = length stages →
  (Forall (λ s, s < length stages) walked
   ∧ ∃ use_later' ans',
       for_each (walk_stage stages not_donated main_copy_vars
                   (global_last_use_of stages))
         (use_later, ans) walked = Ok (use_later', ans')
       ∧ length ans' = length stages
       ∧ (∀ s, s ∉ walked → ans' !! s = ans !! s)
       ∧ (∀ s, s ∈ walked → walked_entry stages not_donated ans' s))
  ∨ (¬ Forall (λ s, s < length stages) walked
     ∧ for_each (walk_stage stages not_donated main_copy_vars
                   (global_last_use_of stages))
         (use_later, ans) walked = Raise IndexError).
Proof.
  induction walked as [|s0 walked IH]; intros use_later ans Hlen.
  { left. split; [constructor|]. exists use_later, ans.
    split_and!; [done..|]. by intros s ?%elem_of_nil. }
  cbn [for_each].
  destruct (stages !! s0) as [stage0|] eqn:Hstage0.
  - destruct (walk_stage_spec stages not_donated main_copy_vars use_later
                ans s0 stage0 Hstage0) as (flags0 & -> & Hflags0).
    cbn [rbind].
    pose proof (lookup_lt_Some _ _ _ Hstage0) as Hs0.
    destruct (IH (use_later ∪ list_to_set (stage_invars stage0))
                (<[s0 := Some flags0]> ans))
      as [(Hrange & use_later' & ans' & Hrun & Hlen' & Hother & Hin)
         |(Hrange & Hrun)].
    { by rewrite length_insert. }
    + left. split; [by constructor|]. exists use_later', ans'.
      split_and!; [done..| |].
      * intros s [Hne Hs]%not_elem_of_cons.
        rewrite Hother by done. by rewrite list_lookup_insert_ne.
      * intros s Hs.
        destruct (decide (s ∈ walked)) as [Hw|Hw]; [by apply Hin|].
        apply elem_of_cons in Hs as [->|?]; [|done].
        intros stage Hstage.
        assert (stage = stage0) by congruence. subst stage.
        exists flags0. split_and!.
        -- rewrite Hother by done. apply list_lookup_insert_eq. lia.
        -- by eapply flags_agree_length.
        -- intros j v Hv Hnd.
           destruct (Forall2_lookup_l _ _ _ j v Hflags0 Hv)
             as (b & Hb & Hiff).
           rewrite Hb. f_equal. apply Hiff. by left.
    + right. split; [|done]. by intros [_ ?]%Forall_cons.
  - right. unfold walk_stage, getitem. rewrite Hstage0. split; [|done].
    apply lookup_ge_None in Hstage0. intros [? _]%Forall_cons. lia.
Qed.

Lemma walk_group_outcome stages (not_donated : gset Var) ans group :
  length ans = length stages →
  (Forall (λ s, s < length stages) group
   ∧ ∃ ans',
       walk_group stages not_donated (global_last_use_of stages) ans group
       = Ok ans'
       ∧ length ans' = length stages
       ∧ (∀ s, s ∉ group → ans' !! s = ans !! s)
       ∧ (∀ s, s ∈ group → walked_entry stages not_donated ans' s))
  ∨ (¬ Forall (λ s, s < length stages) group
     ∧ walk_group stages not_donated (global_last_use_of stages) ans group
       = Raise IndexError).
Proof.
  intros Hlen. unfold walk_group, main_copy_vars_of.
  assert (Forall (λ s, s < length stages) (merge_sort le group)
          ↔ Forall (λ s, s < length stages) group) as Hsorted
    by (by rewrite merge_sort_Permutation).
  assert (Forall (λ s, s < length stages) (reverse (merge_sort le group))
          ↔ Forall (λ s, s < length stages) group) as Hdesc
    by (by rewrite reverse_Permutation, merge_sort_Permutation).
  destruct (main_copy_loop_outcome stages (merge_sort le group) ∅)
    as [(Hrange & mcv & ->)|(Hrange & ->)]; cbn [rbind].
  - destruct (walk_outcome stages not_donated mcv
                (reverse (merge_sort le group)) ∅ ans Hlen)
      as [(_ & use_later' & ans' & -> & Hlen' & Hother & Hin)|(Hbad & _)].
    + left. split; [by apply Hsorted|]. exists ans'. cbn [rbind].
      split_and!; [done..| |].
      * intros s Hs. apply Hother. by rewrite elem_of_descending.
      * intros s Hs. apply Hin. by rewrite elem_of_descending.
    + destruct Hbad. apply Hdesc. by apply Hsorted.
  - right. split; [|done]. by rewrite <- Hsorted.
Qed.

Lemma walk_pattern_outcome stages (not_donated : gset Var) pattern :
  ∀ ans, length ans = length stages →
  (Forall (Forall (λ s, s < length stages)) pattern
   ∧ ∃ ans',
       for_each (walk_group stages not_donated (global_last_use_of stages))
         ans pattern = Ok ans'
       ∧ length ans' = length stages
       ∧ (∀ s, s ∉ concat pattern → ans' !! s = ans !! s)
       ∧ (∀ s, s ∈ concat pattern → walked_entry stages not_donated ans' s))
  ∨ (¬ Forall (Forall (λ s, s < length stages)) pattern
     ∧ for_each (walk_group stages not_donated (global_last_use_of stages))
         ans pattern = Raise IndexError).
Proof.
  induction pattern as [|group pattern IH]; intros ans Hlen.
  { left. split; [constructor|]. exists ans. split_and!; [done..|].
    by intros s ?%elem_of_nil. }
  cbn [for_each].
  destruct (walk_group_outcome stages not_donated ans group Hlen)
    as [(Hrange & ans1 & -> & Hlen1 & Hother1 & Hin1)|(Hrange & ->)];
    cbn [rbind].
  - destruct (IH ans1 Hlen1)
      as [(Hranges & ans' & Hrun & Hlen' & Hother & Hin)|(Hranges & Hrun)].
    + left. split; [by constructor|]. exists ans'.
      split_and!; [done..| |].
      * intros s Hs. simpl in Hs. apply not_elem_of_app in Hs as [Hs1 Hs2].
        rewrite Hother by done. by apply Hother1.
      * intros s Hs.
        destruct (decide (s ∈ concat pattern)) as [Hp|Hp]; [by apply Hin|].
        simpl in Hs. apply elem_of_app in Hs as [Hs|?]; [|done].
        intros stage Hstage.
        destruct (Hin1 s Hs stage Hstage) as (flags & Hans & Hrest).
        exists flags. split; [|done]. by rewrite Hother.
    + right. split; [|done]. by intros [_ ?]%Forall_cons.
  - right. split; [|done]. by intros [? _]%Forall_cons.
Qed.

End DonationOutcome.

Import DonationOutcome.

(** X1. [split_donate_invars] returns exactly when every false flag has
    its global input and every index of the pattern names a stage;
    otherwise it raises [IndexError], and never any other exception (the
    lookup in [global_last_use] cannot fail). *)
Theorem split_donate_invars_outcome
    donated_invars global_invars stages pattern :
  let in_range :=
    (∀ i, donated_invars !! i = Some false → i < length global_invars)
    ∧ Forall (Forall (λ s, s < length stages)) pattern in
  (in_range
   ∧ ∃ ans, split_donate_invars donated_invars global_invars stages pattern
            = Ok ans)
  ∨ (¬ in_range
     ∧ split_donate_invars donated_invars global_invars stages pattern
       = Raise IndexError).
Proof.
  intros in_range. unfold in_range, split_donate_invars.
  destruct (not_donated_of_outcome donated_invars global_invars)
    as [(nd & -> & Hflags)|(-> & i & Hfalse & Hge)]; cbn [rbind].
  - destruct (walk_pattern_outcome stages nd pattern
                (replicate (length stages) None))
      as [(Hrange & ans & -> & _)|(Hrange & ->)].
    { apply length_replicate. }
    + left. split; [done|]. by exists ans.
    + right. split; [|done]. by intros [_ ?].
  - right. split; [|done]. intros [Hflags _]. apply Hflags in Hfalse. lia.
Qed.

(** X2. Whatever the pattern, provided its indices name stages: the
    result has one entry per stage; the entry of a stage that no group
    names is [None], and the entry of a stage named by some group (once or
    several times, in one group or several) is a flag list as long as the
    stage's inputs, with [false] at every global input whose donation flag
    is false. *)
Theorem split_donate_invars_any_pattern
    donated_invars global_invars stages pattern :
  (∀ i, donated_invars !! i = Some false → i < length global_invars) →
  Forall (Forall (λ s, s < length stages)) pattern →
  ∃ ans,
    split_donate_invars donated_invars global_invars stages pattern = Ok ans
    ∧ length ans = length stages
    ∧ (∀ s, s < length stages → s ∉ concat pattern → ans !! s = Some None)
    ∧ (∀ s stage, s ∈ concat pattern → stages !! s = Some stage →
         ∃ flags, ans !! s = Some (Some flags)
           ∧ length flags = length (stage_invars stage)
           ∧ ∀ j v i, stage_invars stage !! j = Some v →
               global_invars !! i = Some v →
               donated_invars !! i = Some false →
               flags !! j = Some false).
Proof.
  intros Hflags Hrange. unfold split_donate_invars.
  destruct (not_donated_of_outcome donated_invars global_invars)
    as [(nd & Hnd & _)|(_ & i & Hfalse & Hge)];
    [|apply Hflags in Hfalse; lia].
  rewrite Hnd. cbn [rbind].
  destruct (walk_pattern_outcome stages nd pattern
              (replicate (length stages) None))
    as [(_ & ans & -> & Hlen & Hother & Hin)|(Hbad & _)]; [| |done].
  { apply length_replicate. }
  exists ans. split_and!; [done..| |].
  - intros s Hs Hnot. rewrite Hother by done.
    by apply lookup_replicate_2.
  - intros s stage Hs Hstage.
    destruct (Hin s Hs stage Hstage) as (flags & Hans & Hlenf & Hfalse).
    exists flags. split_and!; [done..|].
    intros j v i Hv Hglobal Hflag. apply (Hfalse j v Hv).
    apply (not_donated_of_spec _ _ _ v Hnd). by exists i.
Qed.

Lemma split_donate_invars_any_pattern_witness :
  (∀ i, ex_donated_invars !! i = Some false → i < length ex_global_invars)
  ∧ Forall (Forall (λ s, s < length ex_stages)) [[0; 3; 3]; [3]]
  ∧ ∃ ans,
    split_donate_invars ex_donated_invars ex_global_invars ex_stages
      [[0; 3; 3]; [3]] = Ok ans
    ∧ length ans = length ex_stages
    ∧ (∀ s, s < length ex_stages → s ∉ concat [[0; 3; 3]; [3]] →
            ans !! s = Some None)
    ∧ (∀ s stage, s ∈ concat [[0; 3; 3]; [3]] → ex_stages !! s = Some stage →
         ∃ flags, ans !! s = Some (Some flags)
           ∧ length flags = length (stage_invars stage)
           ∧ ∀ j v i, stage_invars stage !! j = Some v →
               ex_global_invars !! i = Some v →
               ex_donated_invars !! i = Some false →
               flags !! j = Some false).
Proof.
  assert (∀ i, ex_donated_invars !! i = Some false →
               i < length ex_global_invars) as Hflags.
  { intros i Hi. apply lookup_lt_Some in Hi. exact Hi. }
  assert (Forall (Forall (λ s, s < length ex_stages)) [[0; 3; 3]; [3]])
    as Hrange by (repeat constructor).
  split_and!; [exact Hflags|exact Hrange|].
  exact (split_donate_invars_any_pattern ex_donated_invars ex_global_invars
           ex_stages [[0; 3; 3]; [3]] Hflags Hrange).
Defined.

(** X3. When all the stages run in one serial group, the main-copy test
    adds nothing: a stage keeps an input exactly when it is a global input
    whose donation flag is false or some later stage reads it. *)
Theorem serial_pattern_rule donated_invars global_invars stages group :
  valid_input donated_invars global_invars stages [group] →
  ∃ ans,
    split_donate_invars donated_invars global_invars stages [group] = Ok ans
    ∧ ∀ s stage, stages !! s = Some stage →
        ∃ flags, ans !! s = Some (Some flags)
          ∧ ∀ j v, stage_invars stage !! j = Some v →
              ∃ b, flags !! j = Some b
                ∧ (b = false ↔
                     (∃ i, donated_invars !! i = Some false
                           ∧ global_invars !! i = Some v)
                     ∨ ∃ u, s < u ∧ reads stages u v).
Proof.
  intros Hvalid.
  destruct (split_donate_invars_spec _ _ _ _ Hvalid)
    as (nd & ans & Hnd & Hrun & _ & Hspec).
  exists ans. split; [done|].
  assert (∀ u, u < length stages → u ∈ group) as Hall.
  { intros u Hu.
    destruct (valid_input_covers _ _ _ _ u Hvalid Hu) as (g & Hg & Hin).
    apply list_elem_of_singleton in Hg. by subst g. }
  intros s stage Hstage.
  destruct (Hspec group s stage) as (flags & Hans & Hagree);
    [by apply list_elem_of_singleton|by eapply Hall, lookup_lt_Some|done|].
  exists flags. split; [done|]. intros j v Hv.
  destruct (Forall2_lookup_l _ _ _ j v Hagree Hv) as (b & Hb & Hiff).
  exists b. split; [done|]. rewrite Hiff. unfold not_donatable.
  rewrite (not_donated_of_spec _ _ _ v Hnd). split.
  - intros [?|[(u & _ & Hlt & Hr)|[_ (L & [Hr _] & Hlt)]]];
      [by left|right; by exists u|right; by exists L].
  - intros [?|(u & Hlt & Hr)]; [by left|].
    right. left. exists u. split_and!; [|done..].
    destruct Hr as (st & Hst & _). by eapply Hall, lookup_lt_Some.
Qed.

Lemma serial_pattern_rule_witness :
  valid_input ex_donated_invars ex_global_invars ex_stages [[2; 0; 3; 1]]
  ∧ ∃ ans,
    split_donate_invars ex_donated_invars ex_global_invars ex_stages
      [[2; 0; 3; 1]] = Ok ans
    ∧ ∀ s stage, ex_stages !! s = Some stage →
        ∃ flags, ans !! s = Some (Some flags)
          ∧ ∀ j v, stage_invars stage !! j = Some v →
              ∃ b, flags !! j = Some b
                ∧ (b = false ↔
                     (∃ i, ex_donated_invars !! i = Some false
                           ∧ ex_global_invars !! i = Some v)
                     ∨ ∃ u, s < u ∧ reads ex_stages u v).
Proof.
  assert (valid_input ex_donated_invars ex_global_invars ex_stages
            [[2; 0; 3; 1]]) as Hvalid.
  { split; [reflexivity|]. by decide_by_computation. }
  split; [exact Hvalid|].
  exact (serial_pattern_rule ex_donated_invars ex_global_invars ex_stages
           [2; 0; 3; 1] Hvalid).
Defined.

(** X4. Donating more global inputs never makes a stage keep more: when
    every true flag of [donated_invars] is also true in [donated_invars'],
    every input marked donatable under the first flags is marked donatable
    under the second. *)
Theorem split_donate_invars_monotone
    donated_invars donated_invars' global_invars stages pattern :
  valid_input donated_invars global_invars stages pattern →
  Forall2 (λ d d', d = true → d' = true) donated_invars donated_invars' →
  ∃ ans ans',
    split_donate_invars donated_invars global_invars stages pattern = Ok ans
    ∧ split_donate_invars donated_invars' global_invars stages pattern
      = Ok ans'
    ∧ ∀ s flags j, ans !! s = Some (Some flags) → flags !! j = Some true →
        ∃ flags', ans' !! s = Some (Some flags') ∧ flags' !! j = Some true.
Proof.
  intros Hvalid Hmore.
  assert (valid_input donated_invars' global_invars stages pattern)
    as Hvalid'.
  { destruct Hvalid as [Hlen Hperm]. split; [|done].
    apply Forall2_length in Hmore. lia. }
  destruct (split_donate_invars_spec _ _ _ _ Hvalid)
    as (nd & ans & Hnd & Hrun & Hlen & Hspec).
  destruct (split_donate_invars_spec _ _ _ _ Hvalid')
    as (nd' & ans' & Hnd' & Hrun' & Hlen' & Hspec').
  exists ans, ans'. split_and!; [done..|].
  intros s flags j Hans Hb.
  assert (s < length stages) as Hs.
  { rewrite <- Hlen. by eapply lookup_lt_Some. }
  destruct (lookup_lt_is_Some_2 stages s Hs) as [stage Hstage].
  destruct (valid_input_covers _ _ _ _ s Hvalid Hs) as (group & Hgroup & Hin).
  destruct (Hspec group s stage Hgroup Hin Hstage) as (flags0 & Hans0 & Hagree).
  assert (flags0 = flags) by congruence. subst flags0.
  destruct (Hspec' group s stage Hgroup Hin Hstage)
    as (flags' & Hans' & Hagree').
  exists flags'. split; [done|].
  destruct (Forall2_lookup_r _ _ _ j true Hagree Hb) as (v & Hv & Hiff).
  destruct (Forall2_lookup_l _ _ _ j v Hagree' Hv) as (b' & Hb' & Hiff').
  rewrite Hb'. f_equal. destruct b'; [done|]. exfalso.
  assert (not_donatable stages nd group s v) as Hkeep; [|by apply Hiff in Hkeep].
  destruct (proj1 Hiff' eq_refl) as [Hin'|Hrest]; [|by right].
  left. apply (not_donated_of_spec _ _ _ v Hnd') in Hin' as (i & Hd' & Hg).
  apply (not_donated_of_spec _ _ _ v Hnd). exists i. split; [|done].
  destruct (Forall2_lookup_r _ _ _ i false Hmore Hd') as (d & Hd & Himp).
  rewrite Hd. f_equal. destruct d; [|done]. by specialize (Himp eq_refl).
Qed.

Lemma split_donate_invars_monotone_witness :
  valid_input ex_donated_invars ex_global_invars ex_stages ex_pattern
  ∧ Forall2 (λ d d', d = true → d' = true) ex_donated_invars
      [true; true; true]
  ∧ ∃ ans ans',
    split_donate_invars ex_donated_invars ex_global_invars ex_stages
      ex_pattern = Ok ans
    ∧ split_donate_invars [true; true; true] ex_global_invars ex_stages
        ex_pattern = Ok ans'
    ∧ ∀ s flags j, ans !! s = Some (Some flags) → flags !! j = Some true →
        ∃ flags', ans' !! s = Some (Some flags') ∧ flags' !! j = Some true.
Proof.
  assert (Forall2 (λ d d', d = true → d' = true) ex_donated_invars
            [true; true; true]) as Hmore by (repeat constructor).
  split_and!; [ex_valid_input|exact Hmore|].
  apply (split_donate_invars_monotone ex_donated_invars [true; true; true]
           ex_global_invars ex_stages ex_pattern); [ex_valid_input|exact Hmore].
Defined.

(** X5. The last stage reading a variable, over all the stages, marks
    it donatable unless the caller forbids it: there the flag is false
    exactly when the variable is a global input whose donation flag is
    false. *)
Theorem last_reader_donates donated_invars global_invars stages pattern v L :
  valid_input donated_invars global_invars stages pattern →
  last_use stages v L →
  ∃ ans stage flags,
    split_donate_invars donated_invars global_invars stages pattern = Ok ans
    ∧ stages !! L = Some stage
    ∧ ans !! L = Some (Some flags)
    ∧ ∀ j, stage_invars stage !! j = Some v →
        ∃ b, flags !! j = Some b
          ∧ (b = false ↔ ∃ i, donated_invars !! i = Some false
                              ∧ global_invars !! i = Some v).
Proof.
  intros Hvalid [(stage & Hstage & Hin) Hmax].
  destruct (split_donate_invars_spec _ _ _ _ Hvalid)
    as (nd & ans & Hnd & Hrun & _ & Hspec).
  destruct (valid_input_covers _ _ _ _ L Hvalid) as (group & Hgroup & HL).
  { by eapply lookup_lt_Some. }
  destruct (Hspec group L stage Hgroup HL Hstage) as (flags & Hans & Hagree).
  exists ans, stage, flags. split_and!; [done..|].
  intros j Hv.
  destruct (Forall2_lookup_l _ _ _ j v Hagree Hv) as (b & Hb & Hiff).
  exists b. split; [done|]. rewrite Hiff. unfold not_donatable.
  rewrite (not_donated_of_spec _ _ _ v Hnd). split; [|by left].
  intros [?|[(u & _ & Hlt & Hr)|[_ (L' & [Hr _] & Hlt)]]]; [done| |];
    apply Hmax in Hr; lia.
Qed.

Lemma last_reader_donates_witness :
  valid_input ex_donated_invars ex_global_invars ex_stages ex_pattern
  ∧ last_use ex_stages "a"%string 3
  ∧ ∃ ans stage flags,
    split_donate_invars ex_donated_invars ex_global_invars ex_stages
      ex_pattern = Ok ans
    ∧ ex_stages !! 3 = Some stage
    ∧ ans !! 3 = Some (Some flags)
    ∧ ∀ j, stage_invars stage !! j = Some "a"%string →
        ∃ b, flags !! j = Some b
          ∧ (b = false ↔ ∃ i, ex_donated_invars !! i = Some false
                              ∧ ex_global_invars !! i = Some "a"%string).
Proof.
  assert (last_use ex_stages "a"%string 3) as Hlast.
  { split.
    - eexists. split; [reflexivity|]. apply list_elem_of_In. simpl. tauto.
    - intros u (stage & Hstage & _). apply lookup_lt_Some in Hstage.
      simpl in Hstage. lia. }
  split_and!; [ex_valid_input|exact Hlast|].
  apply (last_reader_donates ex_donated_invars ex_global_invars ex_stages
           ex_pattern "a"%string 3); [ex_valid_input|exact Hlast].
Defined.

(** * Further properties of split_compute_and_apply *)

Lemma is_grad_marker_KeyError eqn :
  ¬ well_formed_eqn eqn → is_grad_marker eqn = Raise KeyError.
Proof.
  intros Hbad. unfold is_grad_marker, dict_getitem.
  destruct (decide (primitive eqn = pipeline_p)) as [Hp|Hp].
  - rewrite (bool_decide_eq_true_2 _ Hp).
    destruct (params eqn !! "mark_type"%string) as [mark_type|] eqn:Hmark;
      [|done].
    destruct Hbad. intros _. rewrite Hmark. by eexists.
  - destruct Hbad. by intros ?.
Qed.

Lemma find_split_KeyError eqns :
  ¬ Forall well_formed_eqn eqns → find_split eqns = Raise KeyError.
Proof.
  unfold find_split.
  induction eqns as [|eqn eqns IH] using rev_ind; intros Hbad.
  { destruct Hbad. constructor. }
  rewrite enumerate_snoc, for_each_app.
  destruct (decide (Forall well_formed_eqn eqns)) as [Hwf|Hwf].
  - destruct (find_split_spec _ Hwf) as (found & Hrun & _).
    unfold find_split in Hrun. rewrite Hrun. cbn [rbind for_each].
    unfold find_split_body. rewrite is_grad_marker_KeyError; [done|].
    intros Heqn. apply Hbad. apply Forall_app. split; [done|].
    by apply Forall_singleton.
  - by rewrite IH.
Qed.

(** X6. A [pipeline_p] equation without a [mark_type] parameter makes
    [split_compute_and_apply] raise [KeyError], wherever the equation
    stands and whether or not the graph holds a barrier; nothing is
    logged. *)
Theorem split_compute_and_apply_KeyError slices_to_jaxpr closed_jaxpr :
  Exists (λ eqn, primitive eqn = pipeline_p
                 ∧ params eqn !! "mark_type"%string = None)
         (closed_eqns closed_jaxpr) →
  split_compute_and_apply slices_to_jaxpr closed_jaxpr = (Raise KeyError, []).
Proof.
  intros (eqn & Hin & Hp & Hnone)%Exists_exists.
  unfold split_compute_and_apply. rewrite find_split_KeyError; [done|].
  intros Hwf. rewrite Forall_forall in Hwf.
  destruct (Hwf eqn Hin Hp) as [mark_type Hmark]. congruence.
Qed.

Lemma split_compute_and_apply_KeyError_witness :
  Exists (λ eqn, primitive eqn = pipeline_p
                 ∧ params eqn !! "mark_type"%string = None)
         [ex_grad_marker; mkEqn [] [] pipeline_p ∅; ex_sub]
  ∧ split_compute_and_apply ex_slices_to_jaxpr
      (mkClosedJaxpr
         (mkJaxpr [] [] []
                  [ex_grad_marker; mkEqn [] [] pipeline_p ∅; ex_sub]) [])
    = (Raise KeyError, []).
Proof.
  assert (Exists (λ eqn, primitive eqn = pipeline_p
                         ∧ params eqn !! "mark_type"%string = None)
                 [ex_grad_marker; mkEqn [] [] pipeline_p ∅; ex_sub])
    as Hbad.
  { apply Exists_cons_tl, Exists_cons_hd. split; reflexivity. }
  split; [exact Hbad|].
  exact (split_compute_and_apply_KeyError ex_slices_to_jaxpr
           (mkClosedJaxpr
              (mkJaxpr [] [] []
                       [ex_grad_marker; mkEqn [] [] pipeline_p ∅; ex_sub]) [])
           Hbad).
Defined.

(** * Further properties of the stage-to-mesh assignment *)

(** X7. For an even number [N] of stages every mesh hosts exactly two
    stages, [m] and [N-1-m]: stage [i] is on mesh [m < N/2] exactly when
    [i = m] or [i = N-1-m]. *)
Theorem two_stages_per_mesh (jax_pipeline_stages : list JaxPipelineStage)
    i mesh_idx :
  let N := length jax_pipeline_stages in
  N mod 2 = 0 →
  mesh_idx < N / 2 →
  ∃ stage_to_mesh,
    assign_meshes jax_pipeline_stages = Ok (stage_to_mesh, N / 2)
    ∧ (stage_to_mesh !! i = Some mesh_idx ↔
       i = mesh_idx ∨ i = N - 1 - mesh_idx)
    ∧ mesh_idx ≠ N - 1 - mesh_idx.
Proof.
  intros N Heven Hm. unfold assign_meshes. fold N.
  rewrite bool_decide_eq_true_2 by done.
  pose proof (even_half N Heven) as Hhalf.
  exists (stage_to_mesh_of N jax_pipeline_stages).
  split; [done|]. split; [|lia].
  rewrite stage_to_mesh_of_lookup. fold N.
  destruct (decide (i < N)) as [Hi|Hi].
  - destruct (decide (2 * i < N)).
    + rewrite mesh_of_low by done. split; [intros [= ->]; by left|].
      intros [->| ->]; [done|lia].
    + rewrite mesh_of_high by lia. split.
      * intros [= <-]. right. lia.
      * intros [->| ->]; [lia|]. f_equal. lia.
  - split; [done|]. intros [->| ->]; lia.
Qed.

Lemma two_stages_per_mesh_witness :
  length ex_stages mod 2 = 0
  ∧ 1 < length ex_stages / 2
  ∧ ∃ stage_to_mesh,
    assign_meshes ex_stages = Ok (stage_to_mesh, length ex_stages / 2)
    ∧ (stage_to_mesh !! 2 = Some 1 ↔ 2 = 1 ∨ 2 = length ex_stages - 1 - 1)
    ∧ 1 ≠ length ex_stages - 1 - 1.
Proof.
  split_and!; [reflexivity|simpl; lia|].
  apply (two_stages_per_mesh ex_stages 2 1); [reflexivity|simpl; lia].
Defined.

(** * The gradients of the barrier *)

Module BarrierFacts.
Import Jaxpr Barrier.

Lemma mask_loop_spec (acc_grad_dict : gmap Var Var) gradients :
  NoDup gradients →
  ∀ invs (mask : gmap Var Var),
  Forall (λ inv, is_Some (acc_grad_dict !! inv))
         (take (length gradients) invs) →
  ∃ mask',
    for_each (mask_body acc_grad_dict) mask (zip gradients invs) = Ok mask'
    ∧ (∀ k g inv, gradients !! k = Some g → invs !! k = Some inv →
         mask' !! g = acc_grad_dict !! inv)
    ∧ (∀ x, x ∉ take (length invs) gradients → mask' !! x = mask !! x).
Proof.
  induction 1 as [|g gradients Hg _ IH]; intros invs mask Hkeys.
  { exists mask. split_and!; [done| |done]. by intros k g inv ?. }
  destruct invs as [|inv invs].
  { exists mask. split_and!; [done| |done]. by intros k g' inv ? ?. }
  simpl in Hkeys. apply Forall_cons in Hkeys as [[acc Hacc] Hkeys].
  cbn [zip zip_with for_each]. unfold mask_body at 1, dict_getitem.
  rewrite Hacc. cbn [rbind].
  destruct (IH invs (<[g := acc]> mask) Hkeys) as (mask' & -> & Hpairs & Hrest).
  exists mask'. split_and!; [done| |].
  - intros [|k] g' inv' Hg' Hinv'; simpl in *.
    + injection Hg' as <-. injection Hinv' as <-.
      rewrite Hrest; [by rewrite lookup_insert_eq, Hacc|].
      intros Hin%elem_of_take. by destruct Hin as (? & ?%list_elem_of_lookup_2 & _).
    + by apply (Hpairs k).
  - intros x Hx. simpl in Hx. apply not_elem_of_cons in Hx as [Hne Hx].
    rewrite Hrest by done. by rewrite lookup_insert_ne.
Qed.

Lemma mask_loop_KeyError (acc_grad_dict : gmap Var Var) gradients :
  ∀ invs (mask : gmap Var Var),
  ¬ Forall (λ inv, is_Some (acc_grad_dict !! inv))
           (take (length gradients) invs) →
  for_each (mask_body acc_grad_dict) mask (zip gradients invs)
  = Raise KeyError.
Proof.
  induction gradients as [|g gradients IH]; intros invs mask Hbad.
  { destruct Hbad. simpl. constructor. }
  destruct invs as [|inv invs].
  { destruct Hbad. simpl. constructor. }
  cbn [zip zip_with for_each]. unfold mask_body at 1, dict_getitem.
  destruct (acc_grad_dict !! inv) as [acc|] eqn:Hacc; [|done].
  cbn [rbind]. apply IH. intros Hkeys. apply Hbad. simpl.
  constructor; [by eexists|done].
Qed.

End BarrierFacts.

Import Barrier BarrierFacts.

(** With a dropped output in the middle, the gradients after it are
    paired with the inputs one position earlier. *)
Example mask_of_dropped_ex :
  mask_of (λ g, bool_decide (g = "_"%string))
    {[ "a1"%string := "acc1"%string; "a2"%string := "acc2"%string;
       "a3"%string := "acc3"%string ]}
    (mkEqn ["a1"; "a2"; "a3"]%string ["g1"; "_"; "g3"]%string pipeline_p ∅)
  = Ok {[ "g1"%string := "acc1"%string; "g3"%string := "acc2"%string ]}.
Proof. vm_compute. reflexivity. Qed.

(** X8. When the kept outputs of the barrier (those that are not
    [DropVar]) are distinct and the inputs paired with them are keys of
    [acc_grad_dict], [mask] is built: it sends the [k]-th kept output to
    the accumulator of the [k]-th input of the barrier, and its keys are
    kept outputs only, never a [DropVar]. *)
Theorem mask_of_pairs is_DropVar (acc_grad_dict : gmap Var Var) barrier :
  NoDup (gradients_of is_DropVar barrier) →
  Forall (λ inv, is_Some (acc_grad_dict !! inv))
         (take (length (gradients_of is_DropVar barrier))
               (eqn_invars barrier)) →
  ∃ mask,
    mask_of is_DropVar acc_grad_dict barrier = Ok mask
    ∧ (∀ k g inv, gradients_of is_DropVar barrier !! k = Some g →
         eqn_invars barrier !! k = Some inv →
         mask !! g = acc_grad_dict !! inv)
    ∧ (∀ x, is_Some (mask !! x) →
         x ∈ eqn_outvars barrier ∧ is_DropVar x = false).
Proof.
  intros Hnodup Hkeys. unfold mask_of.
  destruct (mask_loop_spec acc_grad_dict (gradients_of is_DropVar barrier)
              Hnodup (eqn_invars barrier) ∅ Hkeys)
    as (mask & -> & Hpairs & Hrest).
  exists mask. split_and!; [done..|].
  intros x Hx.
  destruct (decide (x ∈ gradients_of is_DropVar barrier)) as [Hin|Hnot].
  - unfold gradients_of in Hin. apply list_elem_of_In, filter_In in Hin.
    destruct Hin as [Hin Hkeep]. split; [by apply list_elem_of_In|].
    by apply negb_true_iff.
  - rewrite Hrest in Hx.
    + rewrite lookup_empty in Hx. by destruct Hx.
    + intros Hin%elem_of_take. destruct Hin as (? & Hl & _).
      by apply list_elem_of_lookup_2 in Hl.
Qed.

Lemma mask_of_pairs_witness :
  let is_DropVar := λ g : Var, bool_decide (g = "_"%string) in
  let acc_grad_dict : gmap Var Var :=
    {[ "a1"%string := "acc1"%string; "a2"%string := "acc2"%string ]} in
  let barrier :=
    mkEqn ["a1"; "a2"]%string ["g1"; "g2"]%string pipeline_p ∅ in
  NoDup (gradients_of is_DropVar barrier)
  ∧ Forall (λ inv, is_Some (acc_grad_dict !! inv))
           (take (length (gradients_of is_DropVar barrier))
                 (eqn_invars barrier))
  ∧ ∃ mask,
    mask_of is_DropVar acc_grad_dict barrier = Ok mask
    ∧ (∀ k g inv, gradients_of is_DropVar barrier !! k = Some g →
         eqn_invars barrier !! k = Some inv →
         mask !! g = acc_grad_dict !! inv)
    ∧ (∀ x, is_Some (mask !! x) →
         x ∈ eqn_outvars barrier ∧ is_DropVar x = false).
Proof.
  intros is_DropVar acc_grad_dict barrier.
  assert (NoDup (gradients_of is_DropVar barrier)) as Hnodup
    by decide_by_computation.
  assert (Forall (λ inv, is_Some (acc_grad_dict !! inv))
            (take (length (gradients_of is_DropVar barrier))
                  (eqn_invars barrier))) as Hkeys
    by decide_by_computation.
  split_and!; [exact Hnodup|exact Hkeys|].
  exact (mask_of_pairs is_DropVar acc_grad_dict barrier Hnodup Hkeys).
Defined.

(** X9. When an input of the barrier paired with a kept output is not a
    key of [acc_grad_dict], building [mask] raises [KeyError]. *)
Theorem mask_of_KeyError is_DropVar (acc_grad_dict : gmap Var Var) barrier :
  Exists (λ inv, acc_grad_dict !! inv = None)
         (take (length (gradients_of is_DropVar barrier))
               (eqn_invars barrier)) →
  mask_of is_DropVar acc_grad_dict barrier = Raise KeyError.
Proof.
  intros (inv & Hin & Hnone)%Exists_exists. unfold mask_of.
  apply mask_loop_KeyError. intros Hkeys. rewrite Forall_forall in Hkeys.
  destruct (Hkeys inv Hin) as [acc Hacc]. congruence.
Qed.

Lemma mask_of_KeyError_witness :
  let is_DropVar := λ g : Var, bool_decide (g = "_"%string) in
  let acc_grad_dict : gmap Var Var := {[ "a1"%string := "acc1"%string ]} in
  let barrier :=
    mkEqn ["a1"; "a2"]%string ["g1"; "g2"]%string pipeline_p ∅ in
  Exists (λ inv, acc_grad_dict !! inv = None)
         (take (length (gradients_of is_DropVar barrier))
               (eqn_invars barrier))
  ∧ mask_of is_DropVar acc_grad_dict barrier = Raise KeyError.
Proof.
  intros is_DropVar acc_grad_dict barrier.
  assert (Exists (λ inv, acc_grad_dict !! inv = None)
            (take (length (gradients_of is_DropVar barrier))
                  (eqn_invars barrier))) as Hbad
    by decide_by_computation.
  split; [exact Hbad|].
  exact (mask_of_KeyError is_DropVar acc_grad_dict barrier Hbad).
Defined.

(** * Stages per mesh, donation and compiled stages *)

Module AssemblyFacts.
Import Jaxpr Donation DonationSpec DonationFacts JaxprFacts.
Import Assembly AssemblySpec.

Lemma concat_replicate_nil {A} n : concat (replicate n (@nil A)) = [].
Proof. induction n; [done|]. simpl. done. Qed.

Lemma concat_insert_snoc {A} (ls : list (list A)) i l x :
  ls !! i = Some l → concat (<[i := l ++ [x]]> ls) ≡ₚ concat ls ++ [x].
Proof.
  revert i. induction ls as [|l0 ls IH]; intros [|i] Hl; simplify_eq/=.
  - rewrite <- !app_assoc. apply Permutation_app_head.
    apply (comm app).
  - rewrite (IH i Hl). by rewrite app_assoc.
Qed.

Section placement.
Variable stage_placement : nat → list nat.

Lemma stages_on_snoc N mesh_idx :
  stages_on stage_placement (S N) mesh_idx
  = stages_on stage_placement N mesh_idx
    ++ (if decide (stage_placement N = [mesh_idx]) then [N] else []).
Proof.
  unfold stages_on. rewrite seq_S, filter_app. f_equal.
Qed.

Lemma elem_of_stages_on N mesh_idx i :
  i ∈ stages_on stage_placement N mesh_idx
  ↔ i < N ∧ stage_placement i = [mesh_idx].
Proof.
  unfold stages_on. rewrite list_elem_of_filter, elem_of_seq.
  split; intros [? ?]; split; try done; lia.
Qed.

Lemma NoDup_stages_on N mesh_idx :
  NoDup (stages_on stage_placement N mesh_idx).
Proof. apply NoDup_filter, NoDup_seq. Qed.

Lemma place_stage_Ok stage_dict stage_id_dict i stage mesh_idx ids stages :
  stage_placement i = [mesh_idx] →
  stage_id_dict !! mesh_idx = Some ids →
  stage_dict !! mesh_idx = Some stages →
  place_stage stage_placement (stage_dict, stage_id_dict) (i, stage)
  = Ok (<[mesh_idx := stages ++ [stage]]> stage_dict,
        <[mesh_idx := ids ++ [i]]> stage_id_dict).
Proof.
  intros Hplace Hids Hstages. unfold place_stage. rewrite Hplace.
  rewrite bool_decide_eq_true_2 by done. cbn [getitem lookup rbind].
  simpl. rewrite (getitem_Ok _ _ _ Hids), (getitem_Ok _ _ _ Hstages). done.
Qed.

(** Either every stage is well placed and the groups are built, or the
    first stage that is not makes the loop raise. *)
Lemma group_stages_outcome n_meshes jax_all_stages :
  (well_placed stage_placement n_meshes (length jax_all_stages)
   ∧ ∃ stage_dict stage_id_dict,
       group_stages stage_placement n_meshes jax_all_stages
       = Ok (stage_dict, stage_id_dict)
       ∧ grouped stage_placement n_meshes jax_all_stages
                 stage_dict stage_id_dict)
  ∨ (¬ well_placed stage_placement n_meshes (length jax_all_stages)
     ∧ (group_stages stage_placement n_meshes jax_all_stages
        = Raise AssertionError
        ∨ group_stages stage_placement n_meshes jax_all_stages
          = Raise IndexError)).
Proof.
  unfold group_stages.
  induction jax_all_stages as [|stage stages IH] using rev_ind.
  { left. split; [intros i Hi; simpl in Hi; lia|].
    eexists _, _. split; [done|]. split_and!.
    - apply length_replicate.
    - intros m Hm. by rewrite lookup_replicate_2.
    - apply Forall2_replicate. constructor.
    - by rewrite concat_replicate_nil. }
  assert (length (stages ++ [stage]) = S (length stages)) as HlenS
    by (rewrite length_app; simpl; lia).
  rewrite enumerate_snoc, for_each_app, !HlenS.
  destruct IH as [(Hplaced & sd & sid & -> & Hlen & Hids & Hpar & Hperm)
                 |(Hbad & Herr)].
  2:{ right. split.
      - intros Hplaced. apply Hbad. intros i Hi. apply Hplaced. lia.
      - destruct Herr as [-> | ->]; [by left|by right]. }
  cbn [rbind for_each].
  destruct (stage_placement (length stages)) as [|m [|m' rest]] eqn:Hplace.
  - right. split.
    + intros Hall. destruct (Hall (length stages)) as (m & Hm & _);
        [lia|congruence].
    + left. unfold place_stage. rewrite Hplace. done.
  - destruct (decide (m < n_meshes)) as [Hm|Hm].
    + left. split.
      { intros i Hi. destruct (decide (i = length stages)) as [->|];
          [by exists m|apply Hplaced; lia]. }
      pose proof (Hids m Hm) as Hidsm.
      destruct (Forall2_lookup_l _ _ _ m _ Hpar Hidsm) as (sts & Hsts & Hpm).
      rewrite (place_stage_Ok sd sid (length stages) stage m _ sts Hplace
                 Hidsm Hsts).
      eexists _, _. split; [done|]. unfold grouped. rewrite HlenS.
      split_and!.
      * by rewrite length_insert.
      * intros m0 Hm0. rewrite stages_on_snoc.
        destruct (decide (m0 = m)) as [->|Hne].
        -- rewrite list_lookup_insert_eq by lia.
           by rewrite decide_True by done.
        -- rewrite list_lookup_insert_ne by done.
           rewrite decide_False by congruence.
           rewrite app_nil_r. by apply Hids.
      * apply Forall2_insert.
        -- eapply Forall2_impl; [exact Hpar|]. intros ids0 sts0 H0.
           eapply Forall2_impl; [exact H0|]. intros i st Hi.
           by apply lookup_app_l_Some.
        -- apply Forall2_app.
           ++ eapply Forall2_impl; [exact Hpm|]. intros i st Hi.
              by apply lookup_app_l_Some.
           ++ constructor; [|constructor].
              rewrite lookup_app_r by lia. by rewrite Nat.sub_diag.
      * rewrite (concat_insert_snoc sid m _ (length stages) Hidsm).
        rewrite Hperm. by rewrite seq_S.
    + right. split.
      * intros Hall. destruct (Hall (length stages)) as (m0 & Hm0 & ?);
          [lia|]. assert (m0 = m) by congruence. subst. lia.
      * right. unfold place_stage. rewrite Hplace.
        rewrite bool_decide_eq_true_2 by done. cbn [getitem lookup rbind].
        simpl. unfold getitem. rewrite (lookup_ge_None_2 sid m) by lia. done.
  - right. split.
    + intros Hall. destruct (Hall (length stages)) as (m0 & Hm0 & _);
        [lia|congruence].
    + left. unfold place_stage. rewrite Hplace.
      rewrite bool_decide_eq_false_2; [done|]. simpl. lia.
Qed.

End placement.

Lemma pattern_of_take mesh_num (stage_id_dict : list (list nat)) :
  pattern_of mesh_num stage_id_dict
  = if decide (mesh_num ≤ length stage_id_dict)
    then Ok (take mesh_num stage_id_dict)
    else Raise IndexError.
Proof.
  unfold pattern_of. induction mesh_num as [|k IH].
  { destruct (decide (0 ≤ length stage_id_dict)); [by rewrite take_0|lia]. }
  rewrite seq_S, for_each_app, IH. change (0 + k) with k.
  destruct (decide (k ≤ length stage_id_dict)) as [Hk|Hk];
    cbn [rbind for_each].
  - destruct (stage_id_dict !! k) as [ids|] eqn:Hids.
    + rewrite (getitem_Ok _ _ _ Hids). cbn [rbind].
      rewrite decide_True by (apply lookup_lt_Some in Hids; lia).
      by rewrite (take_S_r _ _ _ Hids).
    + unfold getitem. rewrite Hids. cbn [rbind].
      rewrite decide_False; [done|]. apply lookup_ge_None in Hids. lia.
  - rewrite decide_False; [done|lia].
Qed.

End AssemblyFacts.

Import Assembly AssemblySpec AssemblyFacts.

(** X10. When the schedule places every stage on exactly one mesh below
    [n_meshes], the grouping loop returns [n_meshes] groups: the group of
    a mesh lists the stages placed on it in ascending order, [stage_dict]
    holds the stage objects at the same positions, and the groups together
    name every stage exactly once. *)
Theorem group_stages_partition stage_placement n_meshes jax_all_stages :
  well_placed stage_placement n_meshes (length jax_all_stages) →
  ∃ stage_dict stage_id_dict,
    group_stages stage_placement n_meshes jax_all_stages
    = Ok (stage_dict, stage_id_dict)
    ∧ length stage_id_dict = n_meshes
    ∧ (∀ mesh_idx, mesh_idx < n_meshes →
         stage_id_dict !! mesh_idx
         = Some (stages_on stage_placement (length jax_all_stages) mesh_idx))
    ∧ Forall2 (Forall2 (λ i stage, jax_all_stages !! i = Some stage))
              stage_id_dict stage_dict
    ∧ concat stage_id_dict ≡ₚ seq 0 (length jax_all_stages).
Proof.
  intros Hplaced.
  destruct (group_stages_outcome stage_placement n_meshes jax_all_stages)
    as [(_ & sd & sid & Hrun & Hgrouped)|(Hbad & _)]; [|done].
  by exists sd, sid.
Qed.

Lemma group_stages_partition_witness :
  let stage_placement := λ i, [if bool_decide (2 * i < 4) then i else 3 - i] in
  well_placed stage_placement 2 (length ex_stages)
  ∧ ∃ stage_dict stage_id_dict,
    group_stages stage_placement 2 ex_stages
    = Ok (stage_dict, stage_id_dict)
    ∧ length stage_id_dict = 2
    ∧ (∀ mesh_idx, mesh_idx < 2 →
         stage_id_dict !! mesh_idx
         = Some (stages_on stage_placement (length ex_stages) mesh_idx))
    ∧ Forall2 (Forall2 (λ i stage, ex_stages !! i = Some stage))
              stage_id_dict stage_dict
    ∧ concat stage_id_dict ≡ₚ seq 0 (length ex_stages).
Proof.
  intros stage_placement.
  assert (well_placed stage_placement 2 (length ex_stages)) as Hplaced.
  { intros i Hi. simpl in Hi. unfold stage_placement. eexists. split; [done|].
    case_bool_decide; lia. }
  split; [exact Hplaced|].
  exact (group_stages_partition stage_placement 2 ex_stages Hplaced).
Defined.

(** X11. When some stage has no mesh, several meshes, or a mesh that is
    not below [n_meshes], the grouping loop raises [AssertionError] or
    [IndexError]. *)
Theorem group_stages_fails stage_placement n_meshes jax_all_stages i :
  i < length jax_all_stages →
  (∀ mesh_idx, stage_placement i = [mesh_idx] → n_meshes ≤ mesh_idx) →
  group_stages stage_placement n_meshes jax_all_stages = Raise AssertionError
  ∨ group_stages stage_placement n_meshes jax_all_stages = Raise IndexError.
Proof.
  intros Hi Hnone.
  destruct (group_stages_outcome stage_placement n_meshes jax_all_stages)
    as [(Hplaced & _)|(_ & Herr)]; [|done].
  destruct (Hplaced i Hi) as (m & Hm & Hlt). apply Hnone in Hm. lia.
Qed.

Lemma group_stages_fails_witness :
  let stage_placement := λ i : nat, if bool_decide (i = 2) then [0; 1] else [0] in
  2 < length ex_stages
  ∧ (∀ mesh_idx, stage_placement 2 = [mesh_idx] → 2 ≤ mesh_idx)
  ∧ (group_stages stage_placement 2 ex_stages = Raise AssertionError
     ∨ group_stages stage_placement 2 ex_stages = Raise IndexError).
Proof.
  intros stage_placement.
  assert (∀ mesh_idx, stage_placement 2 = [mesh_idx] → 2 ≤ mesh_idx) as Hnone
    by (intros mesh_idx; discriminate).
  split_and!; [simpl; lia|exact Hnone|].
  apply (group_stages_fails stage_placement 2 ex_stages 2);
    [simpl; lia|exact Hnone].
Defined.

(** X12. The pattern handed to [split_donate_invars] is made of the
    first [mesh_num] groups of [stage_id_dict]; building it raises
    [IndexError] exactly when there are fewer than [mesh_num] groups. *)
Theorem pattern_of_first_groups mesh_num (stage_id_dict : list (list nat)) :
  (mesh_num ≤ length stage_id_dict
   ∧ pattern_of mesh_num stage_id_dict = Ok (take mesh_num stage_id_dict))
  ∨ (length stage_id_dict < mesh_num
     ∧ pattern_of mesh_num stage_id_dict = Raise IndexError).
Proof.
  rewrite pattern_of_take.
  destruct (decide (mesh_num ≤ length stage_id_dict)); [by left|].
  right. split; [lia|done].
Qed.

Module AssemblyMore.
Import Jaxpr Donation DonationSpec DonationFacts JaxprFacts.
Import Assembly AssemblySpec AssemblyFacts.

Lemma concat_nil_Forall {A} (ls : list (list A)) :
  Forall (λ l, l = []) ls → concat ls = [].
Proof. induction 1 as [|l ls -> _ IH]; [done|]. simpl. done. Qed.

Lemma donation_inputs_lookup barrier invars donated_invars grad_in_to_out :
  length donated_invars = length invars →
  length (donation_inputs barrier invars donated_invars grad_in_to_out).2
  = length (donation_inputs barrier invars donated_invars grad_in_to_out).1
  ∧ ∀ v,
      (∃ i, (donation_inputs barrier invars donated_invars
               grad_in_to_out).2 !! i = Some false
            ∧ (donation_inputs barrier invars donated_invars
                 grad_in_to_out).1 !! i = Some v)
      ↔ (∃ i, donated_invars !! i = Some false ∧ invars !! i = Some v).
Proof.
  intros Hlen. destruct barrier as [b|]; simpl; [|done].
  split.
  { rewrite !length_app, length_replicate. lia. }
  intros v. split.
  - intros (i & Hd & Hv). exists i.
    apply lookup_app_Some in Hd as [Hd|[_ Hd]].
    + split; [done|]. rewrite lookup_app_l in Hv; [done|].
      apply lookup_lt_Some in Hd. lia.
    + apply lookup_replicate in Hd as [? _]. done.
  - intros (i & Hd & Hv). exists i.
    split; by apply lookup_app_l_Some.
Qed.

(** The pattern of the caller is a valid input. *)
Lemma caller_valid_input stage_placement n_meshes mesh_num barrier invars
    donated_invars grad_in_to_out jax_all_stages stage_dict stage_id_dict :
  well_placed stage_placement mesh_num (length jax_all_stages) →
  mesh_num ≤ n_meshes →
  length donated_invars = length invars →
  grouped stage_placement n_meshes jax_all_stages stage_dict stage_id_dict →
  pattern_of mesh_num stage_id_dict = Ok (take mesh_num stage_id_dict)
  ∧ valid_input
      (donation_inputs barrier invars donated_invars grad_in_to_out).2
      (donation_inputs barrier invars donated_invars grad_in_to_out).1
      jax_all_stages (take mesh_num stage_id_dict).
Proof.
  intros Hplaced Hle Hlen (Hsid & Hids & _ & Hperm).
  split.
  { rewrite pattern_of_take. by rewrite decide_True by lia. }
  split.
  { by apply donation_inputs_lookup. }
  rewrite <- Hperm.
  rewrite <- (take_drop mesh_num stage_id_dict) at 2.
  rewrite concat_app.
  rewrite (concat_nil_Forall (drop mesh_num stage_id_dict));
    [by rewrite app_nil_r|].
  apply Forall_forall. intros ids Hin.
  apply list_elem_of_lookup in Hin as [k Hk]. rewrite lookup_drop in Hk.
  rewrite Hids in Hk by (apply lookup_lt_Some in Hk; lia).
  injection Hk as <-.
  destruct (stages_on stage_placement (length jax_all_stages)
              (mesh_num + k)) as [|i rest] eqn:Hon; [done|].
  assert (i ∈ stages_on stage_placement (length jax_all_stages)
                (mesh_num + k)) as Hi by (rewrite Hon; by left).
  apply elem_of_stages_on in Hi as [Hi Hpl].
  destruct (Hplaced i Hi) as (m & Hm & Hlt).
  assert (m = mesh_num + k) by congruence. lia.
Qed.

(** For a valid input every stage gets its flags. *)
Lemma valid_input_flags donated_invars global_invars stages pattern :
  valid_input donated_invars global_invars stages pattern →
  ∃ ans,
    split_donate_invars donated_invars global_invars stages pattern = Ok ans
    ∧ length ans = length stages
    ∧ ∀ s stage, stages !! s = Some stage →
        ∃ flags, ans !! s = Some (Some flags)
                 ∧ length flags = length (stage_invars stage).
Proof.
  intros Hvalid.
  destruct (split_donate_invars_spec _ _ _ _ Hvalid)
    as (nd & ans & _ & Hrun & Hlen & Hspec).
  exists ans. split_and!; [done..|].
  intros s stage Hstage.
  destruct (valid_input_covers _ _ _ _ s Hvalid) as (group & Hgroup & Hs).
  { by eapply lookup_lt_Some. }
  destruct (Hspec group s stage Hgroup Hs Hstage) as (flags & Hans & Hagree).
  exists flags. split; [done|]. by eapply flags_agree_length.
Qed.

Lemma stage_donate_invars_loop (donate_invars_dict : list (option (list bool)))
    ids :
  Forall (λ i, i < length donate_invars_dict) ids →
  ∀ acc, ∃ flags,
    for_each (λ acc stage_idx,
        flags ←! getitem donate_invars_dict stage_idx; Ok (acc ++ [flags]))
      acc ids = Ok (acc ++ flags)
    ∧ Forall2 (λ i f, donate_invars_dict !! i = Some f) ids flags.
Proof.
  induction 1 as [|i ids Hi _ IH]; intros acc.
  { exists []. rewrite app_nil_r. split; [done|constructor]. }
  destruct (lookup_lt_is_Some_2 _ _ Hi) as [f Hf].
  cbn [for_each]. rewrite (getitem_Ok _ _ _ Hf). cbn [rbind].
  destruct (IH (acc ++ [f])) as (flags & -> & Hflags).
  exists (f :: flags). rewrite <- app_assoc. split; [done|]. by constructor.
Qed.

Section store.
Context {XlaStage : Type}.

Lemma store_loop_spec ids :
  NoDup ids →
  ∀ (xs : list XlaStage) (xla_stages : list (option XlaStage)),
  Forall (λ i, i < length xla_stages) ids →
  ∃ xla_stages',
    for_each store_stage xla_stages (zip ids xs) = Ok xla_stages'
    ∧ length xla_stages' = length xla_stages
    ∧ (∀ k i x, ids !! k = Some i → xs !! k = Some x →
         xla_stages' !! i = Some (Some x))
    ∧ (∀ s, s ∉ ids → xla_stages' !! s = xla_stages !! s).
Proof.
  induction 1 as [|i ids Hi _ IH]; intros xs xla Hrange.
  { exists xla. split_and!; [done..| |done]. by intros k i x ?. }
  destruct xs as [|x xs].
  { exists xla. split_and!; [done..| |done]. by intros k i' x ? ?. }
  apply Forall_cons in Hrange as [Hlt Hrange].
  cbn [zip zip_with for_each]. unfold store_stage at 1.
  rewrite bool_decide_eq_true_2 by done. cbn [rbind].
  destruct (IH xs (<[i := Some x]> xla)) as (xla' & -> & Hlen & Hin & Hout).
  { by rewrite length_insert. }
  exists xla'. rewrite length_insert in Hlen. split_and!; [done..| |].
  - intros [|k] i' x' Hi' Hx'; simpl in *.
    + injection Hi' as <-. injection Hx' as <-.
      rewrite Hout by done. by apply list_lookup_insert_eq.
    + by apply (Hin k).
  - intros s [Hne Hs]%not_elem_of_cons.
    rewrite Hout by done. by rewrite list_lookup_insert_ne.
Qed.

Variable stage_placement : nat → list nat.
Variable generate_sharded_xla_stages :
  nat → list JaxPipelineStage → list (option (list bool)) →
  Result (list XlaStage).
Hypothesis generate_one_per_stage : one_per_stage generate_sharded_xla_stages.

Lemma compile_mesh_spec n_meshes jax_all_stages stage_dict stage_id_dict
    donate_invars_dict xla_stages mesh_idx :
  grouped stage_placement n_meshes jax_all_stages stage_dict stage_id_dict →
  length donate_invars_dict = length jax_all_stages →
  length xla_stages = length jax_all_stages →
  mesh_idx < n_meshes →
  ∃ xla_stages',
    compile_mesh generate_sharded_xla_stages stage_dict stage_id_dict
      donate_invars_dict xla_stages mesh_idx = Ok xla_stages'
    ∧ length xla_stages' = length jax_all_stages
    ∧ (∀ s, stage_placement s ≠ [mesh_idx] →
         xla_stages' !! s = xla_stages !! s)
    ∧ (∀ s, s < length jax_all_stages → stage_placement s = [mesh_idx] →
         ∃ x, xla_stages' !! s = Some (Some x)
              ∧ compiled_for stage_placement generate_sharded_xla_stages
                  jax_all_stages donate_invars_dict s x).
Proof.
  intros (Hsid & Hids & Hpar & _) Hans Hxla Hm.
  set (ids := stages_on stage_placement (length jax_all_stages) mesh_idx).
  pose proof (Hids mesh_idx Hm) as Hidsm. fold ids in Hidsm.
  destruct (Forall2_lookup_l _ _ _ mesh_idx _ Hpar Hidsm)
    as (sts & Hsts & Hpm).
  assert (Forall (λ i, i < length jax_all_stages) ids) as Hrange.
  { apply Forall_forall. intros i Hi. by apply elem_of_stages_on in Hi as [? _]. }
  destruct (stage_donate_invars_loop donate_invars_dict ids) with (acc := @nil (option (list bool)))
    as (fl & Hfl & Hfl2).
  { by rewrite Hans. }
  destruct (generate_one_per_stage mesh_idx sts fl) as (xs & Hxs & Hlenxs).
  { rewrite <- (Forall2_length _ _ _ Hfl2). by apply Forall2_length in Hpm. }
  destruct (store_loop_spec ids (NoDup_stages_on _ _ _) xs xla_stages)
    as (xla' & Hstore & Hlen' & Hin & Hout).
  { by rewrite Hxla. }
  exists xla'. unfold compile_mesh, stage_donate_invars_of.
  rewrite (getitem_Ok _ _ _ Hidsm). cbn [rbind]. rewrite Hfl. cbn [rbind].
  rewrite (getitem_Ok _ _ _ Hsts). cbn [rbind]. simpl app. rewrite Hxs.
  cbn [rbind]. split_and!; [done|lia| |].
  - intros s Hs. apply Hout. by intros [_ ?]%elem_of_stages_on.
  - intros s Hs Hpl.
    assert (s ∈ ids) as Hsin by (by apply elem_of_stages_on).
    apply list_elem_of_lookup in Hsin as [k Hk].
    assert (k < length xs) as Hkx.
    { apply lookup_lt_Some in Hk. apply Forall2_length in Hpm. lia. }
    destruct (lookup_lt_is_Some_2 xs k Hkx) as [x Hx].
    exists x. split; [by apply (Hin k)|].
    by exists mesh_idx, k, sts, fl, xs.
Qed.

Lemma compile_loop_spec n_meshes jax_all_stages stage_dict stage_id_dict
    donate_invars_dict meshes :
  grouped stage_placement n_meshes jax_all_stages stage_dict stage_id_dict →
  length donate_invars_dict = length jax_all_stages →
  NoDup meshes →
  Forall (λ mesh_idx, mesh_idx < n_meshes) meshes →
  ∀ xla_stages, length xla_stages = length jax_all_stages →
  ∃ xla_stages',
    for_each (compile_mesh generate_sharded_xla_stages stage_dict
                stage_id_dict donate_invars_dict) xla_stages meshes
    = Ok xla_stages'
    ∧ length xla_stages' = length jax_all_stages
    ∧ (∀ s mesh_idx, s < length jax_all_stages →
         stage_placement s = [mesh_idx] → mesh_idx ∈ meshes →
         ∃ x, xla_stages' !! s = Some (Some x)
              ∧ compiled_for stage_placement generate_sharded_xla_stages
                  jax_all_stages donate_invars_dict s x)
    ∧ (∀ s, (∀ mesh_idx, mesh_idx ∈ meshes → stage_placement s ≠ [mesh_idx]) →
         xla_stages' !! s = xla_stages !! s).
Proof.
  intros Hgrouped Hans Hnodup Hrange. revert Hrange.
  induction Hnodup as [|m meshes Hm _ IH]; intros Hrange xla Hxla.
  { exists xla. split_and!; [done..| |done].
    by intros s m _ _ ?%elem_of_nil. }
  apply Forall_cons in Hrange as [Hlt Hrange].
  destruct (compile_mesh_spec n_meshes jax_all_stages stage_dict
              stage_id_dict donate_invars_dict xla m Hgrouped Hans Hxla Hlt)
    as (xla1 & Hstep & Hlen1 & Hout1 & Hin1).
  destruct (IH Hrange xla1 Hlen1) as (xla' & Hrun & Hlen' & Hin & Hout).
  exists xla'. cbn [for_each]. rewrite Hstep. cbn [rbind].
  split_and!; [done..| |].
  - intros s m' Hs Hpl [->|Hm']%elem_of_cons.
    + destruct (Hin1 s Hs Hpl) as (x & Hx & Hc). exists x. split; [|done].
      rewrite Hout; [done|]. intros m' Hm' Hpl'.
      assert (m' = m) by congruence. by subst.
    + by apply (Hin s m').
  - intros s Hs. rewrite Hout.
    + apply Hout1. apply Hs. by left.
    + intros m' Hm'. apply Hs. by right.
Qed.

End store.

End AssemblyMore.

Import AssemblyMore.

(** X13. The gradient accumulators appended to the inputs are all
    donated: with one flag per input of the traced graph, the extended
    flags are again one per extended input, and the set of inputs that must
    not be donated is the same with and without the accumulators. *)
Theorem gradient_inputs_donated barrier invars donated_invars grad_in_to_out :
  length donated_invars = length invars →
  let all_invars :=
    (donation_inputs barrier invars donated_invars grad_in_to_out).1 in
  let all_donation :=
    (donation_inputs barrier invars donated_invars grad_in_to_out).2 in
  length all_donation = length all_invars
  ∧ ∃ not_donated,
      not_donated_of donated_invars invars = Ok not_donated
      ∧ not_donated_of all_donation all_invars = Ok not_donated.
Proof.
  intros Hlen all_invars all_donation.
  destruct (donation_inputs_lookup barrier invars donated_invars
              grad_in_to_out Hlen) as [Hlen' Hsame].
  fold all_invars all_donation in Hlen', Hsame.
  split; [done|].
  destruct (not_donated_of_Ok donated_invars invars) as [nd Hnd]; [lia|].
  destruct (not_donated_of_Ok all_donation all_invars) as [nd' Hnd']; [lia|].
  exists nd. split; [done|]. rewrite Hnd'. f_equal.
  apply set_eq. intros v.
  rewrite (not_donated_of_spec _ _ _ v Hnd).
  rewrite (not_donated_of_spec _ _ _ v Hnd'). apply Hsame.
Qed.

Lemma gradient_inputs_donated_witness :
  let grad_in_to_out : list (Var * Var) :=
    [("acc_w0", "new_w0"); ("acc_w1", "new_w1")]%string in
  length ex_donated_invars = length ex_global_invars
  ∧ (let all_invars :=
       (donation_inputs (Some ex_grad_marker) ex_global_invars
          ex_donated_invars grad_in_to_out).1 in
     let all_donation :=
       (donation_inputs (Some ex_grad_marker) ex_global_invars
          ex_donated_invars grad_in_to_out).2 in
     length all_donation = length all_invars
     ∧ ∃ not_donated,
         not_donated_of ex_donated_invars ex_global_invars = Ok not_donated
         ∧ not_donated_of all_donation all_invars = Ok not_donated).
Proof.
  intros grad_in_to_out. split; [reflexivity|].
  apply (gradient_inputs_donated (Some ex_grad_marker) ex_global_invars
           ex_donated_invars grad_in_to_out).
  reflexivity.
Defined.

(** X14. When the schedule places every stage on exactly one mesh below
    [mesh_num], there are at least [mesh_num] meshes and there is one
    donation flag per input of the traced graph, the pattern that the
    caller builds from [stage_id_dict] is a valid input of
    [split_donate_invars] together with the extended inputs and flags: the
    call returns flags for every stage, as many as the stage has
    inputs. *)
Theorem caller_pattern_is_valid stage_placement n_meshes mesh_num barrier
    invars donated_invars grad_in_to_out jax_all_stages :
  well_placed stage_placement mesh_num (length jax_all_stages) →
  mesh_num ≤ n_meshes →
  length donated_invars = length invars →
  let all_invars :=
    (donation_inputs barrier invars donated_invars grad_in_to_out).1 in
  let all_donation :=
    (donation_inputs barrier invars donated_invars grad_in_to_out).2 in
  ∃ stage_dict stage_id_dict pattern donate_invars_dict,
    group_stages stage_placement n_meshes jax_all_stages
    = Ok (stage_dict, stage_id_dict)
    ∧ pattern_of mesh_num stage_id_dict = Ok pattern
    ∧ valid_input all_donation all_invars jax_all_stages pattern
    ∧ split_donate_invars all_donation all_invars jax_all_stages pattern
      = Ok donate_invars_dict
    ∧ ∀ s stage, jax_all_stages !! s = Some stage →
        ∃ flags, donate_invars_dict !! s = Some (Some flags)
                 ∧ length flags = length (stage_invars stage).
Proof.
  intros Hplaced Hle Hlen all_invars all_donation.
  destruct (group_stages_outcome stage_placement n_meshes jax_all_stages)
    as [(_ & sd & sid & Hrun & Hgrouped)|(Hbad & _)].
  2:{ destruct Hbad. intros i Hi. destruct (Hplaced i Hi) as (m & ? & ?).
      exists m. split; [done|lia]. }
  destruct (caller_valid_input stage_placement n_meshes mesh_num barrier
              invars donated_invars grad_in_to_out jax_all_stages sd sid
              Hplaced Hle Hlen Hgrouped) as [Hpattern Hvalid].
  destruct (valid_input_flags _ _ _ _ Hvalid) as (ans & Hans & _ & Hflags).
  by exists sd, sid, (take mesh_num sid), ans.
Qed.

Lemma caller_pattern_is_valid_witness :
  let stage_placement := λ i, [if bool_decide (2 * i < 4) then i else 3 - i] in
  let grad_in_to_out : list (Var * Var) :=
    [("acc_w0", "new_w0"); ("acc_w1", "new_w1")]%string in
  well_placed stage_placement 2 (length ex_stages)
  ∧ 2 ≤ 3
  ∧ length ex_donated_invars = length ex_global_invars
  ∧ (let all_invars :=
       (donation_inputs (Some ex_grad_marker) ex_global_invars
          ex_donated_invars grad_in_to_out).1 in
     let all_donation :=
       (donation_inputs (Some ex_grad_marker) ex_global_invars
          ex_donated_invars grad_in_to_out).2 in
     ∃ stage_dict stage_id_dict pattern donate_invars_dict,
       group_stages stage_placement 3 ex_stages
       = Ok (stage_dict, stage_id_dict)
       ∧ pattern_of 2 stage_id_dict = Ok pattern
       ∧ valid_input all_donation all_invars ex_stages pattern
       ∧ split_donate_invars all_donation all_invars ex_stages pattern
         = Ok donate_invars_dict
       ∧ ∀ s stage, ex_stages !! s = Some stage →
           ∃ flags, donate_invars_dict !! s = Some (Some flags)
                    ∧ length flags = length (stage_invars stage)).
Proof.
  intros stage_placement grad_in_to_out.
  assert (well_placed stage_placement 2 (length ex_stages)) as Hplaced.
  { intros i Hi. simpl in Hi. unfold stage_placement. eexists. split; [done|].
    case_bool_decide; lia. }
  split_and!; [exact Hplaced|lia|reflexivity|].
  apply (caller_pattern_is_valid stage_placement 3 2 (Some ex_grad_marker)
           ex_global_invars ex_donated_invars grad_in_to_out ex_stages);
    [exact Hplaced|lia|reflexivity].
Defined.

(** X15. Under the conditions of X14 and with a compiler that returns
    one compiled stage per stage it is given, lines 203-243 run to the end
    and leave no [None] in [xla_stages]: the entry of every stage is the
    output, at the stage's position, of the compiler call made for the
    stage's mesh with the stages of that mesh and their donation flags. *)
Theorem assemble_stages_complete {XlaStage : Type} stage_placement
    (generate_sharded_xla_stages :
       nat → list JaxPipelineStage → list (option (list bool)) →
       Result (list XlaStage))
    n_meshes mesh_num barrier invars donated_invars grad_in_to_out
    jax_all_stages :
  one_per_stage generate_sharded_xla_stages →
  well_placed stage_placement mesh_num (length jax_all_stages) →
  mesh_num ≤ n_meshes →
  length donated_invars = length invars →
  ∃ donate_invars_dict xla_stages,
    assemble_stages stage_placement generate_sharded_xla_stages n_meshes
      mesh_num barrier invars donated_invars grad_in_to_out jax_all_stages
    = Ok (donate_invars_dict, xla_stages)
    ∧ length xla_stages = length jax_all_stages
    ∧ ∀ s stage, jax_all_stages !! s = Some stage →
        ∃ flags x,
          donate_invars_dict !! s = Some (Some flags)
          ∧ xla_stages !! s = Some (Some x)
          ∧ compiled_for stage_placement generate_sharded_xla_stages
              jax_all_stages donate_invars_dict s x.
Proof.
  intros Hcompiler Hplaced Hle Hlen.
  destruct (group_stages_outcome stage_placement n_meshes jax_all_stages)
    as [(_ & sd & sid & Hrun & Hgrouped)|(Hbad & _)].
  2:{ destruct Hbad. intros i Hi. destruct (Hplaced i Hi) as (m & ? & ?).
      exists m. split; [done|lia]. }
  destruct (caller_valid_input stage_placement n_meshes mesh_num barrier
              invars donated_invars grad_in_to_out jax_all_stages sd sid
              Hplaced Hle Hlen Hgrouped) as [Hpattern Hvalid].
  destruct (valid_input_flags _ _ _ _ Hvalid)
    as (ans & Hans & Hlenans & Hflags).
  destruct (compile_loop_spec stage_placement generate_sharded_xla_stages
              Hcompiler n_meshes jax_all_stages sd sid ans (seq 0 n_meshes)
              Hgrouped Hlenans (NoDup_seq _ _))
    with (xla_stages := replicate (length jax_all_stages) (@None XlaStage))
    as (xla & Hloop & Hlenxla & Hin & _).
  { apply Forall_forall. intros m Hm%elem_of_seq. lia. }
  { apply length_replicate. }
  exists ans, xla. unfold assemble_stages. rewrite Hrun. cbn [rbind].
  destruct (donation_inputs barrier invars donated_invars grad_in_to_out)
    as [all_invars all_donation] eqn:Hinputs.
  simpl in Hvalid, Hans. rewrite Hpattern. cbn [rbind]. rewrite Hans.
  cbn [rbind]. rewrite Hloop. cbn [rbind]. split_and!; [done..|].
  intros s stage Hstage.
  pose proof (lookup_lt_Some _ _ _ Hstage) as Hs.
  destruct (Hflags s stage Hstage) as (flags & Hfl & _).
  destruct (Hplaced s Hs) as (m & Hm & Hlt).
  destruct (Hin s m Hs Hm) as (x & Hx & Hc).
  { apply elem_of_seq. lia. }
  by exists flags, x.
Qed.

Lemma assemble_stages_complete_witness :
  let stage_placement := λ i, [if bool_decide (2 * i < 4) then i else 3 - i] in
  let generate_sharded_xla_stages :=
    λ (mesh_idx : nat) (mesh_stages : list JaxPipelineStage)
      (stage_donate_invars : list (option (list bool))),
      Ok (zip mesh_stages stage_donate_invars) in
  one_per_stage generate_sharded_xla_stages
  ∧ well_placed stage_placement 2 (length ex_stages)
  ∧ 2 ≤ 2
  ∧ length ex_donated_invars = length ex_global_invars
  ∧ ∃ donate_invars_dict xla_stages,
    assemble_stages stage_placement generate_sharded_xla_stages 2 2 None
      ex_global_invars ex_donated_invars [] ex_stages
    = Ok (donate_invars_dict, xla_stages)
    ∧ length xla_stages = length ex_stages
    ∧ ∀ s stage, ex_stages !! s = Some stage →
        ∃ flags x,
          donate_invars_dict !! s = Some (Some flags)
          ∧ xla_stages !! s = Some (Some x)
          ∧ compiled_for stage_placement generate_sharded_xla_stages
              ex_stages donate_invars_dict s x.
Proof.
  intros stage_placement generate_sharded_xla_stages.
  assert (one_per_stage generate_sharded_xla_stages) as Hcompiler.
  { intros m sts fl Hlen. eexists. split; [reflexivity|].
    rewrite length_zip_with. lia. }
  assert (well_placed stage_placement 2 (length ex_stages)) as Hplaced.
  { intros i Hi. simpl in Hi. unfold stage_placement. eexists. split; [done|].
    case_bool_decide; lia. }
  split_and!; [exact Hcompiler|exact Hplaced|lia|reflexivity|].
  apply (assemble_stages_complete stage_placement
           generate_sharded_xla_stages 2 2 None ex_global_invars
           ex_donated_invars [] ex_stages);
    [exact Hcompiler|exact Hplaced|lia|reflexivity].
Defined.

(** What lines 203-243 compute on the four-stage example. *)
Example assemble_stages_ex :
  assemble_stages
    (λ i, [if bool_decide (2 * i < 4) then i else 3 - i])
    (λ _ mesh_stages _, Ok (stage_name <$> mesh_stages))
    2 2 None ex_global_invars ex_donated_invars [] ex_stages
  = Ok ([Some [false; false]; Some [false; false];
         Some [true; true; true]; Some [true; false; true; true]],
        [Some "fwd0"; Some "fwd1"; Some "bwd1"; Some "bwd0"]%string).
Proof. vm_compute. reflexivity. Qed.
